(** * bd-address-pro: the search core ([src/utils/search.ts])

    A shallow embedding of the search utilities of the package and the
    properties its specification states about them.

    Conventions of the embedding.
    - A JavaScript string is the list of its UTF-16 code units; [length],
      indexing, [includes] and [startsWith] work on code units, as in the
      language.
    - A JavaScript number holding a score is an exact rational ([Q]); a
      number holding a length, a distance or a limit is an integer ([Z]).
      Rounding of IEEE doubles is not modelled.
    - [String.prototype.toLowerCase] is a field of the class [Runtime]; every
      theorem holds for any such function.  The bundled JSON tables are the
      fields of the class [Catalog].
    - An uncaught exception is the [Throw] outcome of the type [result]. *)

From Stdlib Require Import List ZArith NArith QArith Qminmax Lia Lqa Bool Ascii Sorted.
From Stdlib Require String.
Import String.StringSyntax.
Delimit Scope string_scope with string.
Import ListNotations.

Local Open Scope Z_scope.
Local Open Scope list_scope.

(** ** Strings *)

Definition char := N.
Definition jsstring := list char.

Definition len (s : jsstring) : Z := Z.of_nat (length s).

Fixpoint eqb_str (a b : jsstring) : bool :=
  match a, b with
  | [], [] => true
  | x :: a', y :: b' => N.eqb x y && eqb_str a' b'
  | _, _ => false
  end.

(** [target.startsWith(q)] *)
Fixpoint startsWith (target q : jsstring) {struct q} : bool :=
  match q with
  | [] => true
  | x :: q' =>
      match target with
      | [] => false
      | y :: target' => N.eqb x y && startsWith target' q'
      end
  end.

(** [target.includes(q)]: [q] occurs at some position of [target]. *)
Fixpoint includes (target q : jsstring) : bool :=
  startsWith target q ||
  match target with
  | [] => false
  | _ :: target' => includes target' q
  end.

(** The code units [String.prototype.trim] strips: ECMAScript WhiteSpace and
    LineTerminator. *)
Definition isWhiteSpace (c : char) : bool :=
  existsb (N.eqb c)
    [9; 10; 11; 12; 13; 32; 160; 5760; 8232; 8233; 8239; 8287; 12288; 65279]%N
  || (N.leb 8192 c && N.leb c 8202).

Fixpoint trimStart (s : jsstring) : jsstring :=
  match s with
  | [] => []
  | c :: s' => if isWhiteSpace c then trimStart s' else s
  end.

Definition trimEnd (s : jsstring) : jsstring := rev (trimStart (rev s)).

Definition trim (s : jsstring) : jsstring := trimEnd (trimStart s).

(** The guard [!query || query.trim().length === 0]. *)
Definition isBlank (query : jsstring) : bool :=
  (len query =? 0) || (len (trim query) =? 0).

(** Case folding as the host provides it. *)
Class Runtime := { toLowerCase : jsstring -> jsstring }.

(** Folding restricted to Basic Latin, where it moves A-Z onto a-z; it agrees
    with the host's on strings whose cased letters are all Basic Latin. *)
Definition latinLower (c : char) : char :=
  if (N.leb 65 c && N.leb c 90)%bool then (c + 32)%N else c.

Definition basicLatin : Runtime := {| toLowerCase := map latinLower |}.

(** ** Exceptions *)

Inductive JsError := TypeError.

Inductive result (A : Type) :=
| Ok (a : A)
| Throw (e : JsError).
Arguments Ok {A} a.
Arguments Throw {A} e.

Definition bind {A B} (c : result A) (k : A -> result B) : result B :=
  match c with
  | Ok a => k a
  | Throw e => Throw e
  end.

Notation "x <- c ;; k" := (bind c (fun x => k))
  (at level 61, c at next level, right associativity).

(** ** Arrays *)

(** [arr.slice(0, stop)] for an integer [stop]: a negative [stop] counts from
    the end of the array. *)
Definition slice0 {A} (arr : list A) (stop : Z) : list A :=
  let n := Z.of_nat (length arr) in
  let k := if stop <? 0 then Z.max (n + stop) 0 else Z.min stop n in
  firstn (Z.to_nat k) arr.

(** [arr.reduce(f)] without an initial value: a TypeError on the empty
    array. *)
Definition reduce {A} (f : A -> A -> A) (arr : list A) : result A :=
  match arr with
  | [] => Throw TypeError
  | x :: rest => Ok (fold_left f rest x)
  end.

(** [arr.sort(compareFn)] is stable: [a] is moved before [b] only when
    [compareFn a b < 0], and elements that compare equal keep their order. *)
Fixpoint insert {A} (compareFn : A -> A -> Q) (x : A) (sorted : list A) : list A :=
  match sorted with
  | [] => [x]
  | y :: rest =>
      if Qle_bool 0 (compareFn y x) then x :: sorted
      else y :: insert compareFn x rest
  end.

Fixpoint sort {A} (compareFn : A -> A -> Q) (arr : list A) : list A :=
  match arr with
  | [] => []
  | x :: rest => insert compareFn x (sort compareFn rest)
  end.

(** ** Data model ([types/location.types], as the README documents it) *)

Inductive LocationType := division | district | upazila.

Definition eqb_type (a b : LocationType) : bool :=
  match a, b with
  | division, division | district, district | upazila, upazila => true
  | _, _ => false
  end.

(** [types.includes(t)] *)
Definition includesType (types : list LocationType) (t : LocationType) : bool :=
  existsb (eqb_type t) types.

Record Division := {
  div_id : Z; div_name : jsstring; div_bnName : jsstring; div_slug : jsstring }.

Record District := {
  dist_id : Z; dist_name : jsstring; dist_bnName : jsstring;
  dist_slug : jsstring; dist_divisionId : Z }.

Record Upazila := {
  upz_id : Z; upz_name : jsstring; upz_bnName : jsstring;
  upz_slug : jsstring; upz_districtId : Z }.

Inductive AnyLocation :=
| ADivision (d : Division)
| ADistrict (d : District)
| AUpazila (u : Upazila).

(** What the search reads of a location. *)
Class BaseLocation (T : Type) := {
  name : T -> jsstring;
  bnName : T -> jsstring;
  slug : T -> jsstring }.

#[export] Instance Division_loc : BaseLocation Division :=
  {| name := div_name; bnName := div_bnName; slug := div_slug |}.
#[export] Instance District_loc : BaseLocation District :=
  {| name := dist_name; bnName := dist_bnName; slug := dist_slug |}.
#[export] Instance Upazila_loc : BaseLocation Upazila :=
  {| name := upz_name; bnName := upz_bnName; slug := upz_slug |}.
#[export] Instance AnyLocation_loc : BaseLocation AnyLocation :=
  {| name := fun l => match l with
                      | ADivision d => name d | ADistrict d => name d
                      | AUpazila u => name u end;
     bnName := fun l => match l with
                        | ADivision d => bnName d | ADistrict d => bnName d
                        | AUpazila u => bnName u end;
     slug := fun l => match l with
                      | ADivision d => slug d | ADistrict d => slug d
                      | AUpazila u => slug u end |}.

Inductive Field := FName | FBnName | FSlug.

Record SearchResult (T : Type) := {
  item : T; score : Q; matchedField : Field }.
Arguments item {T} _.
Arguments score {T} _.
Arguments matchedField {T} _.

Record LocationSearchResult := {
  divisions : list (SearchResult Division);
  districts : list (SearchResult District);
  upazilas : list (SearchResult Upazila) }.

(** The bundled tables. *)
Class Catalog := {
  divisionsData : list Division;
  districtsData : list District;
  upazilasData : list Upazila }.

(** ** Options *)

(** [SearchOptions]: every property is optional; [None] is a property that
    is absent. *)
Record SearchOptions := {
  opt_includeEnglish : option bool;
  opt_includeBengali : option bool;
  opt_includeSlug : option bool;
  opt_limit : option Z;
  opt_threshold : option Q;
  opt_caseSensitive : option bool;
  opt_types : option (list LocationType) }.

(** [Required<SearchOptions>] *)
Record RequiredSearchOptions := {
  includeEnglish : bool;
  includeBengali : bool;
  includeSlug : bool;
  limit : Z;
  threshold : Q;
  caseSensitive : bool;
  types : list LocationType }.

Definition defaultSearchOptions : RequiredSearchOptions := {|
  includeEnglish := true;
  includeBengali := true;
  includeSlug := true;
  limit := 10;
  threshold := 0.3;
  caseSensitive := false;
  types := [division; district; upazila] |}.

(** The call without options. *)
Definition noOptions : SearchOptions := {|
  opt_includeEnglish := None; opt_includeBengali := None;
  opt_includeSlug := None; opt_limit := None; opt_threshold := None;
  opt_caseSensitive := None; opt_types := None |}.

Definition orDefault {A} (o : option A) (d : A) : A :=
  match o with Some a => a | None => d end.

(** [{ ...base, ...options }]: the properties present in [options] replace
    those of [base]. *)
Definition spread (base : RequiredSearchOptions) (options : SearchOptions)
  : RequiredSearchOptions := {|
  includeEnglish := orDefault (opt_includeEnglish options) (includeEnglish base);
  includeBengali := orDefault (opt_includeBengali options) (includeBengali base);
  includeSlug := orDefault (opt_includeSlug options) (includeSlug base);
  limit := orDefault (opt_limit options) (limit base);
  threshold := orDefault (opt_threshold options) (threshold base);
  caseSensitive := orDefault (opt_caseSensitive options) (caseSensitive base);
  types := orDefault (opt_types options) (types base) |}.

(** [{ ...options, limit: n }] and its siblings. *)
Definition withLimit (options : SearchOptions) (n : Z) : SearchOptions := {|
  opt_includeEnglish := opt_includeEnglish options;
  opt_includeBengali := opt_includeBengali options;
  opt_includeSlug := opt_includeSlug options;
  opt_limit := Some n;
  opt_threshold := opt_threshold options;
  opt_caseSensitive := opt_caseSensitive options;
  opt_types := opt_types options |}.

Definition withThreshold (options : SearchOptions) (t : Q) : SearchOptions := {|
  opt_includeEnglish := opt_includeEnglish options;
  opt_includeBengali := opt_includeBengali options;
  opt_includeSlug := opt_includeSlug options;
  opt_limit := opt_limit options;
  opt_threshold := Some t;
  opt_caseSensitive := opt_caseSensitive options;
  opt_types := opt_types options |}.

Definition withTypes (options : SearchOptions) (ts : list LocationType)
  : SearchOptions := {|
  opt_includeEnglish := opt_includeEnglish options;
  opt_includeBengali := opt_includeBengali options;
  opt_includeSlug := opt_includeSlug options;
  opt_limit := opt_limit options;
  opt_threshold := opt_threshold options;
  opt_caseSensitive := opt_caseSensitive options;
  opt_types := Some ts |}.

Definition withFields (options : SearchOptions) (en bn sl : bool)
  : SearchOptions := {|
  opt_includeEnglish := Some en;
  opt_includeBengali := Some bn;
  opt_includeSlug := Some sl;
  opt_limit := opt_limit options;
  opt_threshold := opt_threshold options;
  opt_caseSensitive := opt_caseSensitive options;
  opt_types := opt_types options |}.

(** ** Similarity *)

(** The inner loop of [levenshteinDistance] for one row [i]: [c] is
    [str1[i-1]], [str2] holds the characters [str2[j-1..]], [above] the
    entries [prevRow[j..]], [diag] is [prevRow[j-1]] and [left] is
    [row[j-1]].  It yields [row[j..]]. *)
Fixpoint fillRow (c : char) (str2 : jsstring) (above : list Z) (diag left : Z)
  : list Z :=
  match str2, above with
  | c2 :: str2', up :: above' =>
      let v := if N.eqb c c2 then diag
               else Z.min (diag + 1) (Z.min (up + 1) (left + 1)) in
      v :: fillRow c str2' above' up v
  | _, _ => []
  end.

(** Row [i] of the matrix from row [i-1]; [row[0] = i]. *)
Definition nextRow (str2 : jsstring) (c : char) (prevRow : list Z) : list Z :=
  match prevRow with
  | [] => []
  | d0 :: above => (d0 + 1) :: fillRow c str2 above d0 (d0 + 1)
  end.

(** Row [0]: [dp[0][j] = j]. *)
Definition firstRow (str2 : jsstring) : list Z :=
  map Z.of_nat (seq 0 (S (length str2))).

Definition levenshteinDistance (str1 str2 : jsstring) : Z :=
  let m := len str1 in
  let n := len str2 in
  if m =? 0 then n
  else if n =? 0 then m
  else
    let lastRow := fold_left (fun prevRow c => nextRow str2 c prevRow)
                             str1 (firstRow str2) in
    nth (length str2) lastRow 0.

Section Search.

Context {host : Runtime} {data : Catalog}.

Definition calculateSimilarity (query target : jsstring) (caseSensitive : bool)
  : Q :=
  let q := if caseSensitive then query else toLowerCase query in
  let t := if caseSensitive then target else toLowerCase target in
  if eqb_str q t then 1
  else if includes t q then
    0.8 + (inject_Z (len q) / inject_Z (len t)) * 0.2
  else if startsWith t q then 0.9
  else
    let distance := levenshteinDistance q t in
    let maxLen := Z.max (len q) (len t) in
    Qmax 0 (1 - inject_Z distance / inject_Z maxLen).

(** ** Matching one item *)

Record FieldScore := { fs_score : Q; fs_field : Field }.

(** [current.score > best.score ? current : best] *)
Definition better (best current : FieldScore) : FieldScore :=
  if Qle_bool (fs_score current) (fs_score best) then best else current.

Definition fieldScores {T} `{BaseLocation T} (it : T) (query : jsstring)
    (options : RequiredSearchOptions) : list FieldScore :=
  (if includeEnglish options
   then [{| fs_score := calculateSimilarity query (name it) (caseSensitive options);
            fs_field := FName |}] else [])
  ++ (if includeBengali options
      then [{| fs_score := calculateSimilarity query (bnName it) (caseSensitive options);
               fs_field := FBnName |}] else [])
  ++ (if includeSlug options
      then [{| fs_score := calculateSimilarity query (slug it) (caseSensitive options);
               fs_field := FSlug |}] else []).

Definition searchInItem {T} `{BaseLocation T} (it : T) (query : jsstring)
    (options : RequiredSearchOptions) : result (option (SearchResult T)) :=
  let scores := fieldScores it query options in
  bestMatch <- reduce better scores ;;
  if Qle_bool (threshold options) (fs_score bestMatch) then
    Ok (Some {| item := it; score := fs_score bestMatch;
                matchedField := fs_field bestMatch |})
  else Ok None.

(** ** Ranked search *)

(** [(a, b) => b.score - a.score] *)
Definition byScoreDesc {T} (a b : SearchResult T) : Q := score b - score a.

(** The loop [for (const x of xs) { r = searchInItem(x, ...); if (r) push }]:
    an exception of [searchInItem] leaves the loop. *)
Fixpoint collect {T} `{BaseLocation T} (xs : list T) (query : jsstring)
    (options : RequiredSearchOptions) : result (list (SearchResult T)) :=
  match xs with
  | [] => Ok []
  | x :: xs' =>
      searchResult <- searchInItem x query options ;;
      found <- collect xs' query options ;;
      Ok (match searchResult with
          | Some r => r :: found
          | None => found
          end)
  end.

(** One of the three blocks of [search]: scan, sort, slice; skipped when the
    category is not among [opts.types]. *)
Definition searchCategory {T} `{BaseLocation T} (t : LocationType)
    (xs : list T) (query : jsstring) (opts : RequiredSearchOptions)
  : result (list (SearchResult T)) :=
  if includesType (types opts) t then
    found <- collect xs query opts ;;
    Ok (slice0 (sort byScoreDesc found) (limit opts))
  else Ok [].

Definition emptyResult : LocationSearchResult :=
  {| divisions := []; districts := []; upazilas := [] |}.

Definition search (query : jsstring) (options : SearchOptions)
  : result LocationSearchResult :=
  let opts := spread defaultSearchOptions options in
  if isBlank query then Ok emptyResult
  else
    let trimmedQuery := trim query in
    divs <- searchCategory division divisionsData trimmedQuery opts ;;
    dists <- searchCategory district districtsData trimmedQuery opts ;;
    upzs <- searchCategory upazila upazilasData trimmedQuery opts ;;
    Ok {| divisions := divs; districts := dists; upazilas := upzs |}.

(** A [SearchResult<Division>] seen as a [SearchResult<AnyLocation>]. *)
Definition widen {T} (inj : T -> AnyLocation) (r : SearchResult T)
  : SearchResult AnyLocation :=
  {| item := inj (item r); score := score r; matchedField := matchedField r |}.

Definition flatten (r : LocationSearchResult) : list (SearchResult AnyLocation) :=
  map (widen ADivision) (divisions r)
  ++ map (widen ADistrict) (districts r)
  ++ map (widen AUpazila) (upazilas r).

Definition quickSearch (query : jsstring) (options : SearchOptions)
  : result (option AnyLocation) :=
  r <- search query (withLimit options 1) ;;
  let allResults := flatten r in
  if (Z.of_nat (length allResults) =? 0) then Ok None
  else
    match sort byScoreDesc allResults with
    | first :: _ => Ok (Some (item first))
    | [] => Ok None
    end.

Definition searchDivisions (query : jsstring) (options : SearchOptions)
  : result (list (SearchResult Division)) :=
  r <- search query (withTypes options [division]) ;; Ok (divisions r).

Definition searchDistricts (query : jsstring) (options : SearchOptions)
  : result (list (SearchResult District)) :=
  r <- search query (withTypes options [district]) ;; Ok (districts r).

Definition searchUpazilas (query : jsstring) (options : SearchOptions)
  : result (list (SearchResult Upazila)) :=
  r <- search query (withTypes options [upazila]) ;; Ok (upazilas r).

Definition fuzzySearch (query : jsstring) (options : SearchOptions)
  : result LocationSearchResult :=
  search query (withThreshold options 0.4).

Definition searchBengali (query : jsstring) (options : SearchOptions)
  : result LocationSearchResult :=
  search query (withFields options false true false).

Definition searchEnglish (query : jsstring) (options : SearchOptions)
  : result LocationSearchResult :=
  search query (withFields options true false false).

(** ** Autocomplete *)

Record Suggestion := {
  sg_name : jsstring; sg_bnName : jsstring;
  sg_type : LocationType; sg_item : AnyLocation }.

(** An element of the working array [results]. *)
Record Prioritized := { entry : Suggestion; priority : Z }.

(** The closure [checkStartsWith]; it appends at most one element to
    [results]. *)
Definition checkStartsWith (opts : RequiredSearchOptions) (q : jsstring)
    (results : list Prioritized)
    (nm bn : jsstring) (type : LocationType) (it : AnyLocation)
  : list Prioritized :=
  let nameToCheck := if caseSensitive opts then nm else toLowerCase nm in
  let bnNameToCheck := bn in
  let e := {| sg_name := nm; sg_bnName := bn; sg_type := type; sg_item := it |} in
  if includeEnglish opts && startsWith nameToCheck q then
    results ++ [{| entry := e; priority := 1 |}]
  else if includeBengali opts && startsWith bnNameToCheck q then
    results ++ [{| entry := e; priority := 2 |}]
  else results.

(** One of the three loops of [autocomplete]. *)
Definition scanCategory {T} `{BaseLocation T} (opts : RequiredSearchOptions)
    (q : jsstring) (type : LocationType) (inj : T -> AnyLocation)
    (xs : list T) (results : list Prioritized) : list Prioritized :=
  if includesType (types opts) type then
    fold_left (fun acc x => checkStartsWith opts q acc (name x) (bnName x)
                              type (inj x)) xs results
  else results.

(** [(a, b) => a.priority - b.priority] *)
Definition byPriority (a b : Prioritized) : Q :=
  inject_Z (priority a - priority b).

Definition autocomplete (query : jsstring) (options : SearchOptions)
  : list Suggestion :=
  if isBlank query then []
  else
    let opts := spread defaultSearchOptions options in
    let q := if caseSensitive opts then trim query
             else toLowerCase (trim query) in
    let results := [] in
    let results := scanCategory opts q division ADivision divisionsData results in
    let results := scanCategory opts q district ADistrict districtsData results in
    let results := scanCategory opts q upazila AUpazila upazilasData results in
    map entry (slice0 (sort byPriority results) (limit opts)).

End Search.

(** ** A sample catalog

    A few rows of the bundled tables, as the README quotes them, for
    evaluating the functions on concrete inputs. *)

(** A literal of Basic Latin characters as a JavaScript string. *)
Definition js (s : String.string) : jsstring :=
  map N_of_ascii (String.list_ascii_of_string s).
Arguments js s%_string.

Definition bn_dhaka : jsstring := [2466; 2494; 2453; 2494]%N.
Definition bn_sylhet : jsstring := [2488; 2495; 2482; 2503; 2463]%N.
Definition bn_gazipur : jsstring :=
  [2455; 2494; 2460; 2496; 2474; 2497; 2480]%N.
Definition bn_savar : jsstring := [2488; 2494; 2477; 2494; 2480]%N.
Definition bn_dhamrai : jsstring := [2471; 2494; 2478; 2480; 2494; 2439]%N.

Definition dhakaDivision : Division :=
  {| div_id := 1; div_name := js "Dhaka"; div_bnName := bn_dhaka;
     div_slug := js "dhaka" |}.
Definition sylhetDivision : Division :=
  {| div_id := 6; div_name := js "Sylhet"; div_bnName := bn_sylhet;
     div_slug := js "sylhet" |}.
Definition dhakaDistrict : District :=
  {| dist_id := 18; dist_name := js "Dhaka"; dist_bnName := bn_dhaka;
     dist_slug := js "dhaka"; dist_divisionId := 1 |}.
Definition gazipurDistrict : District :=
  {| dist_id := 20; dist_name := js "Gazipur"; dist_bnName := bn_gazipur;
     dist_slug := js "gazipur"; dist_divisionId := 1 |}.
Definition savarUpazila : Upazila :=
  {| upz_id := 151; upz_name := js "Savar"; upz_bnName := bn_savar;
     upz_slug := js "savar"; upz_districtId := 18 |}.
Definition dhamraiUpazila : Upazila :=
  {| upz_id := 150; upz_name := js "Dhamrai"; upz_bnName := bn_dhamrai;
     upz_slug := js "dhamrai"; upz_districtId := 18 |}.

Definition sampleCatalog : Catalog := {|
  divisionsData := [dhakaDivision; sylhetDivision];
  districtsData := [dhakaDistrict; gazipurDistrict];
  upazilasData := [savarUpazila; dhamraiUpazila] |}.

Definition emptyCatalog : Catalog :=
  {| divisionsData := []; districtsData := []; upazilasData := [] |}.

(** * Vocabulary of the statements *)

(** [RowTail p pre s row]: [row] holds the entries of the matrix row of the
    prefix [p] of the first string, at the columns after the prefix [pre] of
    the second; each is non-negative and is zero only where the two prefixes
    coincide. *)
Inductive RowTail (p : jsstring) : jsstring -> jsstring -> list Z -> Prop :=
| RowTail_nil pre : RowTail p pre [] []
| RowTail_cons pre c s v row :
    0 <= v -> (v = 0 -> p = pre ++ [c]) ->
    RowTail p (pre ++ [c]) s row ->
    RowTail p pre (c :: s) (v :: row).

(** A whole row: its first entry is the length of the prefix. *)
Definition RowOf (p s : jsstring) (row : list Z) : Prop :=
  exists tail, row = len p :: tail /\ RowTail p [] s tail.


Section Vocabulary.

Context {host : Runtime} {data : Catalog}.

(** The optional case folding of [calculateSimilarity]. *)
Definition folded (caseSensitive : bool) (s : jsstring) : jsstring :=
  if caseSensitive then s else toLowerCase s.

(** [t] contains [q] as a contiguous substring. *)
Definition Contains (t q : jsstring) : Prop :=
  exists pre post, t = pre ++ q ++ post.

(** [t] starts with [q]. *)
Definition StartsWith (t q : jsstring) : Prop :=
  exists post, t = q ++ post.

End Vocabulary.

(** [l1] is an initial segment of [l2]. *)
Definition Prefix {A} (l1 l2 : list A) : Prop := exists rest, l2 = l1 ++ rest.

(** [a] may stand before [b] when keys are to descend. *)
Definition keyDescending {A} (key : A -> Q) (a b : A) : Prop :=
  (key b <= key a)%Q.

(** Scores never increase along the sequence. *)
Definition Descending {T} (l : list (SearchResult T)) : Prop :=
  StronglySorted (fun a b => (score b <= score a)%Q) l.

(** The results of a sequence whose score is [s], in their order. *)
Definition withScore {T} (s : Q) (l : list (SearchResult T))
  : list (SearchResult T) :=
  filter (fun r => Qeq_bool (score r) s) l.

Section Ranking.

Context {host : Runtime} {data : Catalog}.

(** The matches of the entities [xs], in the order of [xs]: the results
    [searchInItem] returns for them. *)
Definition hits {T} `{BaseLocation T} (xs : list T) (query : jsstring)
    (opts : RequiredSearchOptions) : list (SearchResult T) :=
  flat_map (fun x => match searchInItem x query opts with
                     | Ok (Some r) => [r]
                     | _ => []
                     end) xs.

(** [x] is one of the matches. *)
Definition isHit {T} `{BaseLocation T} (query : jsstring)
    (opts : RequiredSearchOptions) (x : T) : bool :=
  match searchInItem x query opts with
  | Ok (Some _) => true
  | _ => false
  end.

(** [out] is ranked over the entities [xs]: sorted by non-increasing score,
    and for every score the results having it are the first matches of [xs]
    having it, in the order of [xs]. *)
Definition Ranked {T} `{BaseLocation T} (out : list (SearchResult T))
    (xs : list T) (query : jsstring) (opts : RequiredSearchOptions) : Prop :=
  Descending out /\
  forall s, Prefix (withScore s out) (withScore s (hits xs query opts)).

(** At least one of the three field flags is set. *)
Definition anyField (opts : RequiredSearchOptions) : bool :=
  includeEnglish opts || includeBengali opts || includeSlug opts.

End Ranking.

Section Orchestration.

Context {host : Runtime} {data : Catalog}.

(** The entities of the categories listed in [opts.types]. *)
Definition searched (opts : RequiredSearchOptions) : list AnyLocation :=
  (if includesType (types opts) division
   then map ADivision divisionsData else [])
  ++ (if includesType (types opts) district
      then map ADistrict districtsData else [])
  ++ (if includesType (types opts) upazila
      then map AUpazila upazilasData else []).

(** [e] matches with the result [r]. *)
Definition Matches (e : AnyLocation) (query : jsstring)
    (opts : RequiredSearchOptions) (r : SearchResult AnyLocation) : Prop :=
  searchInItem e query opts = Ok (Some r).

(** The first element of an array, if any: [arr[0]]. *)
Definition first {A} (arr : list A) : option A :=
  match arr with
  | [] => None
  | x :: _ => Some x
  end.

End Orchestration.

Section Suggestions.

Context {host : Runtime} {data : Catalog}.

(** The suggestion [checkStartsWith] would push for an entity. *)
Definition suggest {T} `{BaseLocation T} (type : LocationType)
    (inj : T -> AnyLocation) (x : T) : Suggestion :=
  {| sg_name := name x; sg_bnName := bnName x; sg_type := type;
     sg_item := inj x |}.

(** The entities [autocomplete] visits, in the order it visits them:
    divisions, then districts, then upazilas, each table in its order, a
    category being skipped when it is not among [opts.types]. *)
Definition candidates (opts : RequiredSearchOptions) : list Suggestion :=
  (if includesType (types opts) division
   then map (suggest division ADivision) divisionsData else [])
  ++ (if includesType (types opts) district
      then map (suggest district ADistrict) districtsData else [])
  ++ (if includesType (types opts) upazila
      then map (suggest upazila AUpazila) upazilasData else []).

(** The entity matches on its primary name: priority 1. *)
Definition onPrimary (opts : RequiredSearchOptions) (q : jsstring)
    (e : Suggestion) : bool :=
  includeEnglish opts
  && startsWith (folded (caseSensitive opts) (sg_name e)) q.

(** The entity matches on its secondary name only: priority 2.  The
    secondary name is compared as it is stored. *)
Definition onSecondaryOnly (opts : RequiredSearchOptions) (q : jsstring)
    (e : Suggestion) : bool :=
  negb (onPrimary opts q e)
  && (includeBengali opts && startsWith (sg_bnName e) q).

(** What [checkStartsWith] appends for a candidate. *)
Definition tagged (opts : RequiredSearchOptions) (q : jsstring)
    (e : Suggestion) : list Prioritized :=
  if onPrimary opts q e then [{| entry := e; priority := 1 |}]
  else if onSecondaryOnly opts q e then [{| entry := e; priority := 2 |}]
  else [].

(** The query as [autocomplete] compares it. *)
Definition prefixQuery (opts : RequiredSearchOptions) (query : jsstring)
  : jsstring :=
  folded (caseSensitive opts) (trim query).

(** What a suggestion shows besides the entity itself. *)
Definition shape (e : Suggestion) : jsstring * jsstring * LocationType :=
  (sg_name e, sg_bnName e, sg_type e).

End Suggestions.

(** A catalog with other slugs. *)
Definition reslug (f : jsstring -> jsstring) (c : Catalog) : Catalog := {|
  divisionsData :=
    map (fun d => {| div_id := div_id d; div_name := div_name d;
                     div_bnName := div_bnName d; div_slug := f (div_slug d) |})
        (@divisionsData c);
  districtsData :=
    map (fun d => {| dist_id := dist_id d; dist_name := dist_name d;
                     dist_bnName := dist_bnName d;
                     dist_slug := f (dist_slug d);
                     dist_divisionId := dist_divisionId d |})
        (@districtsData c);
  upazilasData :=
    map (fun u => {| upz_id := upz_id u; upz_name := upz_name u;
                     upz_bnName := upz_bnName u; upz_slug := f (upz_slug u);
                     upz_districtId := upz_districtId u |})
        (@upazilasData c) |}.

(** A table row whose secondary name is written in Latin letters. *)
Definition daccaDivision : Division :=
  {| div_id := 1; div_name := js "Dacca"; div_bnName := js "Dhaka";
     div_slug := js "dacca" |}.

Definition latinCatalog : Catalog :=
  {| divisionsData := [daccaDivision]; districtsData := [];
     upazilasData := [] |}.

(** The options with the three field flags off. *)
Definition noFields : SearchOptions := withFields noOptions false false false.

(** ** Edit scripts *)

(** [Edit a b n]: [b] is obtained from [a] by a script of [n] single-character
    operations, read from left to right: a character is kept, substituted,
    deleted or inserted. *)
Inductive Edit : jsstring -> jsstring -> Z -> Prop :=
| Edit_nil : Edit [] [] 0
| Edit_keep c a b n : Edit a b n -> Edit (c :: a) (c :: b) n
| Edit_subst c d a b n : Edit a b n -> Edit (c :: a) (d :: b) (n + 1)
| Edit_delete c a b n : Edit a b n -> Edit (c :: a) b (n + 1)
| Edit_insert d a b n : Edit a b n -> Edit a (d :: b) (n + 1).

(** [d] is the cost of a cheapest script from [a] to [b]. *)
Definition Distance (a b : jsstring) (d : Z) : Prop :=
  Edit a b d /\ forall n, Edit a b n -> d <= n.

(** [OptTail p pre s row]: the entries of [row] are the distances between the
    prefix [p] of the first string and the prefixes of the second that
    extend [pre] by the characters of [s], one more for each entry.  Prefixes
    are read from their last character. *)
Inductive OptTail (p : jsstring) : jsstring -> jsstring -> list Z -> Prop :=
| OptTail_nil pre : OptTail p pre [] []
| OptTail_cons pre c s v row :
    Distance (rev p) (rev (pre ++ [c])) v ->
    OptTail p (pre ++ [c]) s row ->
    OptTail p pre (c :: s) (v :: row).

(** A whole row of the matrix for the prefix [p]. *)
Definition OptRow (p s : jsstring) (row : list Z) : Prop :=
  exists tail, row = len p :: tail /\ OptTail p [] s tail.

(** ** Fields of a location *)

(** The text a field tag stands for. *)
Definition fieldValue {T} `{BaseLocation T} (f : Field) (it : T) : jsstring :=
  match f with
  | FName => name it
  | FBnName => bnName it
  | FSlug => slug it
  end.

(** The flag that enables a field. *)
Definition fieldEnabled (opts : RequiredSearchOptions) (f : Field) : bool :=
  match f with
  | FName => includeEnglish opts
  | FBnName => includeBengali opts
  | FSlug => includeSlug opts
  end.

(** The order in which [searchInItem] scores the fields. *)
Definition fieldRank (f : Field) : Z :=
  match f with
  | FName => 0
  | FBnName => 1
  | FSlug => 2
  end.

Section FieldScores.

Context {host : Runtime}.

(** The score of one field of an item. *)
Definition fieldScore {T} `{BaseLocation T} (it : T) (query : jsstring)
    (opts : RequiredSearchOptions) (f : Field) : Q :=
  calculateSimilarity query (fieldValue f it) (caseSensitive opts).

End FieldScores.

From Stdlib Require Import Permutation.

Section Soundness.

Context {host : Runtime} {data : Catalog}.

(** [out] is sound over the table [xs]: each result is the one [searchInItem]
    computes for an entity of [xs], with a score between the threshold and 1,
    and no entity of a table without repetitions is returned twice. *)
Definition Sound {T} `{BaseLocation T} (out : list (SearchResult T))
    (xs : list T) (query : jsstring) (opts : RequiredSearchOptions) : Prop :=
  (forall x, In x out ->
     In (item x) xs
     /\ searchInItem (item x) query opts = Ok (Some x)
     /\ (threshold opts <= score x)%Q
     /\ (0 <= score x)%Q /\ (score x <= 1)%Q)
  /\ (NoDup xs -> NoDup (map item out))
  /\ (length out <= length xs)%nat.

End Soundness.

(** Two option records that differ at most in [threshold]. *)
Definition sameButThreshold (a b : RequiredSearchOptions) : Prop :=
  includeEnglish a = includeEnglish b
  /\ includeBengali a = includeBengali b
  /\ includeSlug a = includeSlug b
  /\ limit a = limit b
  /\ caseSensitive a = caseSensitive b
  /\ types a = types b.

(** In each category, the results [a] are an initial segment of the results
    [b]. *)
Definition PrefixResult (a b : LocationSearchResult) : Prop :=
  Prefix (divisions a) (divisions b)
  /\ Prefix (districts a) (districts b)
  /\ Prefix (upazilas a) (upazilas b).

(** Every result of [r] matched on the field [f]. *)
Definition MatchedOn (f : Field) (r : LocationSearchResult) : Prop :=
  (forall x, In x (divisions r) -> matchedField x = f)
  /\ (forall x, In x (districts r) -> matchedField x = f)
  /\ (forall x, In x (upazilas r) -> matchedField x = f).

(** The order in which [quickSearch] lines up the categories. *)
Definition categoryRank (e : AnyLocation) : Z :=
  match e with
  | ADivision _ => 0
  | ADistrict _ => 1
  | AUpazila _ => 2
  end.

(** A suggestion stands for an entity of the catalog: its item is a row of
    the table of its type, and its two names are that row's. *)
Definition FromCatalog {data : Catalog} (e : Suggestion) : Prop :=
  sg_name e = name (sg_item e)
  /\ sg_bnName e = bnName (sg_item e)
  /\ match sg_item e with
     | ADivision d => sg_type e = division /\ In d divisionsData
     | ADistrict d => sg_type e = district /\ In d districtsData
     | AUpazila u => sg_type e = upazila /\ In u upazilasData
     end.

(** * The data access functions ([src/index.ts]) *)

Record FullAddress := {
  addr_division : Division; addr_district : District; addr_upazila : Upazila }.

(** A [Record<number, number>]: the value stored under a key, if any. *)
Definition NumRecord := Z -> option Z.

Definition emptyRecord : NumRecord := fun _ => None.

(** [record[k] = v] *)
Definition setKey (record : NumRecord) (k v : Z) : NumRecord :=
  fun k' => if k' =? k then Some v else record k'.

(** [x || 0] for a number or undefined. *)
Definition orZero (x : option Z) : Z :=
  match x with Some v => v | None => 0 end.

Record LocationStats := {
  totalDivisions : Z; totalDistricts : Z; totalUpazilas : Z;
  divisionDistrictMap : NumRecord; districtUpazilaMap : NumRecord }.


Section Index.

Context {host : Runtime} {data : Catalog}.

Definition getDivisionById (id : Z) : option Division :=
  find (fun d => div_id d =? id) divisionsData.

Definition getDivisionBySlug (slug : jsstring) : option Division :=
  find (fun d => eqb_str (div_slug d) (toLowerCase slug)) divisionsData.

Definition getDivisionByName (nm : jsstring) : option Division :=
  let lowerName := toLowerCase nm in
  find (fun d => eqb_str (toLowerCase (div_name d)) lowerName
                 || eqb_str (div_bnName d) nm) divisionsData.

Definition getDistrictById (id : Z) : option District :=
  find (fun d => dist_id d =? id) districtsData.

Definition getDistrictBySlug (slug : jsstring) : option District :=
  find (fun d => eqb_str (dist_slug d) (toLowerCase slug)) districtsData.

Definition getDistrictByName (nm : jsstring) : option District :=
  let lowerName := toLowerCase nm in
  find (fun d => eqb_str (toLowerCase (dist_name d)) lowerName
                 || eqb_str (dist_bnName d) nm) districtsData.

Definition getDistrictsByDivision (divisionId : Z) : list District :=
  filter (fun d => dist_divisionId d =? divisionId) districtsData.

Definition getDistrictsByDivisionSlug (divisionSlug : jsstring)
  : list District :=
  match getDivisionBySlug divisionSlug with
  | None => []
  | Some dv => getDistrictsByDivision (div_id dv)
  end.

Definition getUpazilaById (id : Z) : option Upazila :=
  find (fun u => upz_id u =? id) upazilasData.

Definition getUpazilaBySlug (slug : jsstring) : option Upazila :=
  find (fun u => eqb_str (upz_slug u) (toLowerCase slug)) upazilasData.

Definition getUpazilaByName (nm : jsstring) : option Upazila :=
  let lowerName := toLowerCase nm in
  find (fun u => eqb_str (toLowerCase (upz_name u)) lowerName
                 || eqb_str (upz_bnName u) nm) upazilasData.

Definition getUpazilasByDistrict (districtId : Z) : list Upazila :=
  filter (fun u => upz_districtId u =? districtId) upazilasData.

Definition getUpazilasByDistrictSlug (districtSlug : jsstring)
  : list Upazila :=
  match getDistrictBySlug districtSlug with
  | None => []
  | Some ds => getUpazilasByDistrict (dist_id ds)
  end.

(** The set [districtIds] is the list of the ids put into it; [has] is
    membership. *)
Definition getUpazilasByDivision (divisionId : Z) : list Upazila :=
  let divisionDistricts := getDistrictsByDivision divisionId in
  let districtIds := map dist_id divisionDistricts in
  filter (fun u => existsb (Z.eqb (upz_districtId u)) districtIds)
         upazilasData.

Definition getDivisionOfDistrict (districtId : Z) : option Division :=
  match getDistrictById districtId with
  | None => None
  | Some ds => getDivisionById (dist_divisionId ds)
  end.

Definition getDistrictOfUpazila (upazilaId : Z) : option District :=
  match getUpazilaById upazilaId with
  | None => None
  | Some uz => getDistrictById (upz_districtId uz)
  end.

Definition getFullAddress (upazilaId : Z) : option FullAddress :=
  match getUpazilaById upazilaId with
  | None => None
  | Some uz =>
      match getDistrictById (upz_districtId uz) with
      | None => None
      | Some ds =>
          match getDivisionById (dist_divisionId ds) with
          | None => None
          | Some dv =>
              Some {| addr_division := dv; addr_district := ds;
                      addr_upazila := uz |}
          end
      end
  end.

Definition getFullAddressBySlug (upazilaSlug : jsstring)
  : option FullAddress :=
  match getUpazilaBySlug upazilaSlug with
  | None => None
  | Some uz => getFullAddress (upz_id uz)
  end.

(** The counting loop of [getStats]:
    [record[k] = (record[k] || 0) + 1] for each key. *)
Definition countKeys (keys : list Z) : NumRecord :=
  fold_left (fun record k => setKey record k (orZero (record k) + 1))
            keys emptyRecord.

Definition getStats : LocationStats := {|
  totalDivisions := Z.of_nat (length divisionsData);
  totalDistricts := Z.of_nat (length districtsData);
  totalUpazilas := Z.of_nat (length upazilasData);
  divisionDistrictMap := countKeys (map dist_divisionId districtsData);
  districtUpazilaMap := countKeys (map upz_districtId upazilasData) |}.

Definition getDistrictCount (divisionId : Z) : Z :=
  Z.of_nat (length (getDistrictsByDivision divisionId)).

Definition getUpazilaCount (districtId : Z) : Z :=
  Z.of_nat (length (getUpazilasByDistrict districtId)).

Definition getUpazilaCountByDivision (divisionId : Z) : Z :=
  Z.of_nat (length (getUpazilasByDivision divisionId)).

Definition isSome {A} (x : option A) : bool :=
  match x with Some _ => true | None => false end.

Definition isValidDivision (id : Z) : bool := isSome (getDivisionById id).
Definition isValidDistrict (id : Z) : bool := isSome (getDistrictById id).
Definition isValidUpazila (id : Z) : bool := isSome (getUpazilaById id).

Definition isDistrictInDivision (districtId divisionId : Z) : bool :=
  match getDistrictById districtId with
  | Some ds => dist_divisionId ds =? divisionId
  | None => false
  end.

Definition isUpazilaInDistrict (upazilaId districtId : Z) : bool :=
  match getUpazilaById upazilaId with
  | Some uz => upz_districtId uz =? districtId
  | None => false
  end.

Definition isUpazilaInDivision (upazilaId divisionId : Z) : bool :=
  match getDistrictOfUpazila upazilaId with
  | Some ds => dist_divisionId ds =? divisionId
  | None => false
  end.



End Index.

(** The ids of each table are pairwise different. *)
Definition UniqueIds (data : Catalog) : Prop :=
  NoDup (map div_id (@divisionsData data))
  /\ NoDup (map dist_id (@districtsData data))
  /\ NoDup (map upz_id (@upazilasData data)).

(** The sum of a list of numbers. *)
Definition total (l : list Z) : Z := fold_right Z.add 0 l.

(** * Properties *)

(** ** Strings *)

Lemma eqb_str_spec (a b : jsstring) : eqb_str a b = true <-> a = b.
Proof.
  revert b; induction a as [|x a IH]; intros [|y b]; simpl;
    try (split; [discriminate | congruence]); [tauto|].
  rewrite andb_true_iff, N.eqb_eq, IH.
  split; [intros [-> ->]; reflexivity | intros [= -> ->]; auto].
Qed.

Lemma eqb_str_false (a b : jsstring) : eqb_str a b = false <-> a <> b.
Proof.
  rewrite <- eqb_str_spec. destruct (eqb_str a b); split; congruence.
Qed.

Lemma startsWith_spec (t q : jsstring) :
  startsWith t q = true <-> exists post, t = q ++ post.
Proof.
  revert t; induction q as [|x q IH]; intros t; simpl.
  - split; [intros _; exists t; reflexivity | reflexivity].
  - destruct t as [|y t].
    + split; [discriminate | intros [post [=]]].
    + rewrite andb_true_iff, N.eqb_eq, IH. split.
      * intros [-> [post ->]]. exists post; reflexivity.
      * intros [post [= -> ->]]. split; [reflexivity | exists post; reflexivity].
Qed.

Lemma includes_spec (t q : jsstring) :
  includes t q = true <-> exists pre post, t = pre ++ q ++ post.
Proof.
  induction t as [|y t IH].
  - simpl. rewrite orb_false_r, startsWith_spec. split.
    + intros [post E]. exists [], post. exact E.
    + intros [pre [post E]]. destruct pre; [exists post; exact E | discriminate].
  - cbn [includes]. rewrite orb_true_iff, startsWith_spec, IH. split.
    + intros [[post E] | [pre [post E]]].
      * exists [], post. exact E.
      * exists (y :: pre), post. rewrite E. reflexivity.
    + intros [[|z pre] [post E]].
      * left. exists post. exact E.
      * right. injection E as -> E. exists pre, post. exact E.
Qed.

(** Every prefix is a substring: the guard of the third rule of
    [calculateSimilarity] implies the guard of the second. *)
Lemma startsWith_includes (t q : jsstring) :
  startsWith t q = true -> includes t q = true.
Proof.
  intros H. destruct t; simpl in *; rewrite H; reflexivity.
Qed.

Lemma includes_len (t q : jsstring) :
  includes t q = true -> len q <= len t.
Proof.
  rewrite includes_spec. intros [pre [post ->]]. unfold len.
  rewrite !length_app. lia.
Qed.

Lemma includes_same_len (t q : jsstring) :
  includes t q = true -> len q = len t -> q = t.
Proof.
  rewrite includes_spec. intros [pre [post ->]]. unfold len.
  rewrite !length_app. intros E.
  destruct pre; [|simpl in E; lia].
  destruct post; [|simpl in E; lia].
  simpl. now rewrite app_nil_r.
Qed.

Lemma len_nonneg (s : jsstring) : 0 <= len s.
Proof. unfold len. lia. Qed.

Lemma len_zero (s : jsstring) : len s = 0 -> s = [].
Proof. unfold len. destruct s; simpl; [reflexivity | lia]. Qed.

(** ** Edit distance *)

Lemma fillRow_inv (c : char) (p : jsstring) :
  forall s above pre diag left,
    0 <= diag -> 0 <= left ->
    (diag = 0 -> p = pre) ->
    (left = 0 -> p ++ [c] = pre) ->
    RowTail p pre s above ->
    RowTail (p ++ [c]) pre s (fillRow c s above diag left).
Proof.
  induction s as [|c2 s IH]; intros above pre diag left Hd Hl Hd0 Hl0 HR;
    inversion HR; subst; simpl.
  - constructor.
  - destruct (N.eqb_spec c c2) as [->|Hne].
    + constructor; [lia | intros ->; now rewrite Hd0 | ].
      apply IH; auto; try lia.
      intros ->. now rewrite Hd0.
    + constructor; [lia | lia | ].
      apply IH; auto; lia.
Qed.

Lemma firstRow_tail (pre s : jsstring) :
  RowTail [] pre s (map Z.of_nat (seq (S (length pre)) (length s))).
Proof.
  revert pre. induction s as [|c s IH]; intros pre; simpl.
  - constructor.
  - constructor; [lia | lia |].
    specialize (IH (pre ++ [c])). rewrite length_app in IH. simpl in IH.
    replace (length pre + 1)%nat with (S (length pre)) in IH by lia.
    exact IH.
Qed.

Lemma firstRow_inv (s : jsstring) : RowOf [] s (firstRow s).
Proof.
  unfold RowOf, firstRow. simpl. eexists. split; [reflexivity|].
  apply (firstRow_tail [] s).
Qed.

Lemma nextRow_inv (p s : jsstring) (c : char) (row : list Z) :
  RowOf p s row -> RowOf (p ++ [c]) s (nextRow s c row).
Proof.
  intros [tail [-> HR]]. unfold RowOf, nextRow.
  eexists. split.
  - unfold len. rewrite length_app. simpl.
    replace (Z.of_nat (length p + 1)) with (Z.of_nat (length p) + 1) by lia.
    reflexivity.
  - pose proof (len_nonneg p).
    apply fillRow_inv; auto; try lia.
    intros E. apply len_zero in E. now subst.
Qed.

Lemma rows_inv (s : jsstring) :
  forall s1 p row, RowOf p s row ->
    RowOf (p ++ s1) s (fold_left (fun prevRow c => nextRow s c prevRow) s1 row).
Proof.
  induction s1 as [|c s1 IH]; intros p row HR; simpl.
  - now rewrite app_nil_r.
  - replace (p ++ c :: s1) with ((p ++ [c]) ++ s1) by now rewrite <- app_assoc.
    apply IH. now apply nextRow_inv.
Qed.

Lemma RowTail_last (p : jsstring) :
  forall s pre row d, RowTail p pre s row -> s <> [] ->
    0 <= nth (length s - 1) row d /\
    (nth (length s - 1) row d = 0 -> p = pre ++ s).
Proof.
  induction s as [|c s IH]; intros pre row d HR Hs; [congruence|].
  inversion HR; subst. simpl. rewrite Nat.sub_0_r.
  destruct s as [|c' s].
  - inversion H5; subst. simpl. auto.
  - specialize (IH (pre ++ [c]) row0 d H5 ltac:(discriminate)).
    simpl in IH. rewrite Nat.sub_0_r in IH. simpl.
    rewrite <- app_assoc in IH. exact IH.
Qed.

Lemma levenshteinDistance_nonneg (a b : jsstring) :
  0 <= levenshteinDistance a b.
Proof.
  unfold levenshteinDistance.
  destruct (Z.eqb_spec (len a) 0); [apply len_nonneg|].
  destruct (Z.eqb_spec (len b) 0); [apply len_nonneg|].
  destruct (rows_inv b a [] _ (firstRow_inv b)) as [tail [E HR]].
  simpl in E. rewrite E.
  assert (Hb : b <> []) by (intros ->; apply n0; reflexivity).
  destruct b as [|c b]; [congruence|].
  simpl. pose proof (RowTail_last a (c :: b) [] tail 0 HR Hb) as [H _].
  simpl in H. now rewrite Nat.sub_0_r in H.
Qed.

(** The distance is zero only between equal strings. *)
Lemma levenshteinDistance_zero (a b : jsstring) :
  levenshteinDistance a b = 0 -> a = b.
Proof.
  unfold levenshteinDistance.
  destruct (Z.eqb_spec (len a) 0) as [Ea|Ea].
  { intros Eb. apply len_zero in Ea, Eb. congruence. }
  destruct (Z.eqb_spec (len b) 0) as [Eb|Eb]; [intros; contradiction|].
  destruct (rows_inv b a [] _ (firstRow_inv b)) as [tail [E HR]].
  simpl in E. rewrite E.
  assert (Hb : b <> []) by (intros ->; apply Eb; reflexivity).
  destruct b as [|c b]; [congruence|].
  simpl. pose proof (RowTail_last a (c :: b) [] tail 0 HR Hb) as [_ H].
  simpl in H. now rewrite Nat.sub_0_r in H.
Qed.

(** ** The similarity score *)

Section Properties.

Context {host : Runtime} {data : Catalog}.

Local Open Scope Q_scope.

Lemma ratio_bounds (a b : Z) :
  (0 <= a)%Z -> (a < b)%Z ->
  0 <= inject_Z a / inject_Z b /\ inject_Z a / inject_Z b < 1.
Proof.
  intros Ha Hab.
  assert (Hb : 0 < inject_Z b) by (change 0 with (inject_Z 0); rewrite <- Zlt_Qlt; lia).
  split.
  - apply Qle_shift_div_l; [exact Hb|]. rewrite Qmult_0_l.
    change 0 with (inject_Z 0). rewrite <- Zle_Qle. exact Ha.
  - apply Qlt_shift_div_r; [exact Hb|]. rewrite Qmult_1_l.
    rewrite <- Zlt_Qlt. exact Hab.
Qed.

Lemma ratio_nonneg (a b : Z) :
  (0 <= a)%Z -> (0 < b)%Z -> 0 <= inject_Z a / inject_Z b.
Proof.
  intros Ha Hb.
  apply Qle_shift_div_l.
  - change 0 with (inject_Z 0); rewrite <- Zlt_Qlt; lia.
  - rewrite Qmult_0_l. change 0 with (inject_Z 0). rewrite <- Zle_Qle. exact Ha.
Qed.

Lemma ratio_pos (a b : Z) :
  (0 < a)%Z -> (0 < b)%Z -> 0 < inject_Z a / inject_Z b.
Proof.
  intros Ha Hb.
  apply Qlt_shift_div_l.
  - change 0 with (inject_Z 0); rewrite <- Zlt_Qlt; lia.
  - rewrite Qmult_0_l. change 0 with (inject_Z 0). rewrite <- Zlt_Qlt. exact Ha.
Qed.

(** The four rules of [calculateSimilarity], on the folded strings. *)
Lemma calculateSimilarity_rules (query target : jsstring) (cs : bool) :
  let q := folded cs query in
  let t := folded cs target in
  (q = t /\ calculateSimilarity query target cs = 1) \/
  (q <> t /\ includes t q = true /\
   calculateSimilarity query target cs
   = 0.8 + (inject_Z (len q) / inject_Z (len t)) * 0.2) \/
  (q <> t /\ includes t q = false /\
   calculateSimilarity query target cs
   = Qmax 0 (1 - inject_Z (levenshteinDistance q t)
                 / inject_Z (Z.max (len q) (len t)))).
Proof.
  intros q t. unfold calculateSimilarity. fold (folded cs query) (folded cs target).
  fold q t.
  destruct (eqb_str q t) eqn:E.
  - left. apply eqb_str_spec in E. auto.
  - apply eqb_str_false in E. right.
    destruct (includes t q) eqn:I; [left; auto|].
    right. destruct (startsWith t q) eqn:S; [|auto].
    apply startsWith_includes in S. congruence.
Qed.

Lemma includes_proper_len (t q : jsstring) :
  includes t q = true -> q <> t -> (len q < len t)%Z.
Proof.
  intros I Hne. pose proof (includes_len _ _ I).
  destruct (Z.eq_dec (len q) (len t)) as [E|E]; [|lia].
  exfalso. apply Hne. now apply includes_same_len.
Qed.

Lemma edit_similarity_bounds (q t : jsstring) :
  q <> t ->
  let s := Qmax 0 (1 - inject_Z (levenshteinDistance q t)
                      / inject_Z (Z.max (len q) (len t))) in
  0 <= s /\ s < 1.
Proof.
  intros Hne s.
  assert (Hd : (0 < levenshteinDistance q t)%Z).
  { pose proof (levenshteinDistance_nonneg q t).
    destruct (Z.eq_dec (levenshteinDistance q t) 0) as [E|E]; [|lia].
    apply levenshteinDistance_zero in E. contradiction. }
  assert (Hm : (0 < Z.max (len q) (len t))%Z).
  { pose proof (len_nonneg q). pose proof (len_nonneg t).
    destruct (Z.eq_dec (Z.max (len q) (len t)) 0) as [E|E]; [|lia].
    exfalso. apply Hne.
    assert (len q = 0%Z) by lia. assert (len t = 0%Z) by lia.
    rewrite (len_zero q), (len_zero t); auto. }
  pose proof (ratio_pos _ _ Hd Hm) as Hr.
  subst s. split.
  - apply Q.le_max_l.
  - apply Q.max_lub_lt; lra.
Qed.

(** C2.  The score of [calculateSimilarity] lies in [0, 1] for every query,
    candidate and case-sensitivity flag, and it is 1 exactly when the
    (optionally case-folded) query and candidate are equal. *)
Theorem calculateSimilarity_range (query target : jsstring) (cs : bool) :
  (0 <= calculateSimilarity query target cs
   /\ calculateSimilarity query target cs <= 1)
  /\ (calculateSimilarity query target cs == 1
      <-> folded cs query = folded cs target).
Proof.
  destruct (calculateSimilarity_rules query target cs)
    as [[E ->] | [[Hne [I ->]] | [Hne [I ->]]]].
  - split; [split; lra | split; [auto | reflexivity]].
  - pose proof (includes_proper_len _ _ I Hne) as Hlt.
    pose proof (ratio_bounds _ _ (len_nonneg _) Hlt) as [H0 H1].
    split; [split; lra | split; [intros H; lra | contradiction]].
  - pose proof (edit_similarity_bounds _ _ Hne) as [H0 H1]. cbv zeta in H0, H1.
    split; [split; lra | split; [intros H; lra | contradiction]].
Qed.

(** C3.  When the folded candidate contains the folded query and differs
    from it, the score is [0.8 + 0.2 * len q / len c], a value of
    [[0.8, 1)]; a proper prefix is such a substring, so it gets the same
    formula, and no input reaches the third rule: whenever its guard holds
    the first or the second rule has already returned. *)
Theorem calculateSimilarity_containment (query target : jsstring) (cs : bool) :
  let q := folded cs query in
  let c := folded cs target in
  let formula := 0.8 + 0.2 * inject_Z (len q) / inject_Z (len c) in
  (Contains c q -> c <> q ->
     calculateSimilarity query target cs == formula
     /\ 0.8 <= formula /\ formula < 1)
  /\ (StartsWith c q -> c <> q ->
     calculateSimilarity query target cs == formula)
  /\ (startsWith c q = true ->
     eqb_str q c = true \/ includes c q = true).
Proof.
  intros q c formula.
  assert (main : Contains c q -> c <> q ->
     calculateSimilarity query target cs == formula
     /\ 0.8 <= formula /\ formula < 1).
  { subst formula q c. intros HC Hne. apply includes_spec in HC.
    destruct (calculateSimilarity_rules query target cs)
      as [[E _] | [[_ [I ->]] | [_ [I _]]]].
    - congruence.
    - pose proof (includes_proper_len _ _ I ltac:(congruence)) as Hlt.
      pose proof (ratio_bounds _ _ (len_nonneg _) Hlt) as [H0 H1].
      set (r := inject_Z (len (folded cs query))
                / inject_Z (len (folded cs target))) in *.
      assert (Ef : 0.8 + 0.2 * inject_Z (len (folded cs query))
                         / inject_Z (len (folded cs target))
                   == 0.8 + r * 0.2).
      { subst r. unfold Qdiv. ring. }
      rewrite Ef. split; [reflexivity | split; lra].
    - congruence. }
  split; [exact main|]. split.
  - intros [post E] Hne. apply main; [|exact Hne].
    exists [], post. exact E.
  - intros S. right. now apply startsWith_includes.
Qed.

End Properties.

(** ** Arrays: [slice] and the stable [sort] *)

Section Arrays.

Context {A : Type}.

Lemma slice0_firstn (l : list A) (k : Z) :
  exists n, slice0 l k = firstn n l.
Proof. unfold slice0. eexists. reflexivity. Qed.

Lemma slice0_length (l : list A) (k : Z) :
  0 <= k -> Z.of_nat (length (slice0 l k)) <= k.
Proof.
  intros Hk. unfold slice0.
  destruct (Z.ltb_spec k 0); [lia|].
  rewrite length_firstn. lia.
Qed.

Lemma slice0_zero (l : list A) : slice0 l 0 = [].
Proof.
  unfold slice0. simpl.
  replace (Z.min 0 (Z.of_nat (length l))) with 0 by lia. reflexivity.
Qed.

Lemma slice0_nil (k : Z) : slice0 (@nil A) k = [].
Proof. unfold slice0. now rewrite firstn_nil. Qed.

(** A negative [stop] drops that many elements from the end. *)
Lemma slice0_negative (l : list A) (k : Z) :
  k < 0 ->
  Z.of_nat (length (slice0 l k)) = Z.max (Z.of_nat (length l) + k) 0.
Proof.
  intros Hk. unfold slice0.
  destruct (Z.ltb_spec k 0); [|lia].
  rewrite length_firstn. lia.
Qed.

Lemma firstn_Prefix (n : nat) (l : list A) : Prefix (firstn n l) l.
Proof. exists (skipn n l). symmetry. apply firstn_skipn. Qed.

Lemma Prefix_filter (p : A -> bool) (l1 l2 : list A) :
  Prefix l1 l2 -> Prefix (filter p l1) (filter p l2).
Proof.
  intros [rest ->]. exists (filter p rest). apply filter_app.
Qed.

Lemma Prefix_In (l1 l2 : list A) (x : A) : Prefix l1 l2 -> In x l1 -> In x l2.
Proof. intros [rest ->] H. apply in_or_app. now left. Qed.

Lemma Prefix_trans (l1 l2 l3 : list A) :
  Prefix l1 l2 -> Prefix l2 l3 -> Prefix l1 l3.
Proof.
  intros [r1 ->] [r2 ->]. exists (r1 ++ r2). now rewrite app_assoc.
Qed.

Lemma StronglySorted_firstn (R : A -> A -> Prop) (n : nat) (l : list A) :
  StronglySorted R l -> StronglySorted R (firstn n l).
Proof.
  intros H. revert n. induction H as [|x l Hs IH Hx]; intros [|n]; simpl;
    try constructor.
  - apply IH.
  - rewrite Forall_forall in *. intros y Hy. apply Hx.
    eapply Prefix_In; [apply firstn_Prefix | exact Hy].
Qed.

Variable compareFn : A -> A -> Q.

Lemma insert_In (x y : A) (l : list A) :
  In y (insert compareFn x l) <-> y = x \/ In y l.
Proof.
  induction l as [|z l IH]; simpl.
  - intuition auto.
  - destruct (Qle_bool 0 (compareFn z x)); simpl; [intuition auto|].
    rewrite IH. intuition auto.
Qed.

Lemma sort_In (y : A) (l : list A) : In y (sort compareFn l) <-> In y l.
Proof.
  induction l as [|x l IH]; simpl; [tauto|].
  rewrite insert_In, IH. intuition auto.
Qed.

Lemma insert_length (x : A) (l : list A) :
  length (insert compareFn x l) = S (length l).
Proof.
  induction l as [|z l IH]; simpl; [reflexivity|].
  destruct (Qle_bool 0 (compareFn z x)); simpl; [reflexivity | now rewrite IH].
Qed.

Lemma sort_length (l : list A) : length (sort compareFn l) = length l.
Proof.
  induction l as [|x l IH]; simpl; [reflexivity|].
  now rewrite insert_length, IH.
Qed.

(** The comparator orders by a key, larger keys first. *)
Variable key : A -> Q.
Hypothesis compare_key :
  forall y x, Qle_bool 0 (compareFn y x) = Qle_bool (key y) (key x).

Lemma insert_sorted (x : A) (l : list A) :
  StronglySorted (keyDescending key) l ->
  StronglySorted (keyDescending key) (insert compareFn x l).
Proof.
  induction 1 as [|y l Hs IH Hy]; simpl.
  - repeat constructor.
  - rewrite compare_key. destruct (Qle_bool (key y) (key x)) eqn:E.
    + apply Qle_bool_iff in E.
      constructor; [constructor; assumption|].
      constructor; [exact E|].
      rewrite Forall_forall in *. intros z Hz. unfold keyDescending in *.
      specialize (Hy z Hz). eapply Qle_trans; eassumption.
    + assert (Hlt : (key x < key y)%Q).
      { apply Qnot_le_lt. intros H. apply Qle_bool_iff in H. congruence. }
      constructor; [exact IH|].
      rewrite Forall_forall in *. intros z Hz.
      apply insert_In in Hz. destruct Hz as [->|Hz].
      * unfold keyDescending. now apply Qlt_le_weak.
      * now apply Hy.
Qed.

Lemma sort_sorted (l : list A) :
  StronglySorted (keyDescending key) (sort compareFn l).
Proof.
  induction l as [|x l IH]; simpl; [constructor | now apply insert_sorted].
Qed.

(** Stability: the elements of one key keep their order. *)
Lemma insert_stable (s : Q) (x : A) (l : list A) :
  filter (fun a => Qeq_bool (key a) s) (insert compareFn x l)
  = filter (fun a => Qeq_bool (key a) s) (x :: l).
Proof.
  induction l as [|y l IH]; [reflexivity|].
  cbn [insert]. rewrite compare_key.
  destruct (Qle_bool (key y) (key x)) eqn:E; [reflexivity|].
  cbn [filter] in *. rewrite IH.
  destruct (Qeq_bool (key x) s) eqn:Ex, (Qeq_bool (key y) s) eqn:Ey;
    try reflexivity.
  exfalso. apply Qeq_bool_iff in Ex, Ey.
  assert (H : Qle_bool (key y) (key x) = true).
  { apply Qle_bool_iff. rewrite Ex, Ey. apply Qle_refl. }
  congruence.
Qed.

Lemma sort_stable (s : Q) (l : list A) :
  filter (fun a => Qeq_bool (key a) s) (sort compareFn l)
  = filter (fun a => Qeq_bool (key a) s) l.
Proof.
  induction l as [|x l IH]; [reflexivity|].
  cbn [sort]. rewrite insert_stable. cbn [filter]. now rewrite IH.
Qed.

(** The head of the sorted array carries a largest key. *)
Lemma sort_head_max (l : list A) (first : A) (rest : list A) :
  sort compareFn l = first :: rest ->
  In first l /\ forall y, In y l -> (key y <= key first)%Q.
Proof.
  intros E. split.
  - apply sort_In. rewrite E. now left.
  - intros y Hy. apply sort_In in Hy. rewrite E in Hy.
    pose proof (sort_sorted l) as Hs. rewrite E in Hs.
    inversion Hs as [|? ? _ Hall]; subst.
    destruct Hy as [->|Hy]; [apply Qle_refl|].
    rewrite Forall_forall in Hall. now apply Hall.
Qed.

End Arrays.

(** ** Ranked search *)

Section RankedSearch.

Context {host : Runtime} {data : Catalog}.

Lemma Qle_bool_eq (a b c d : Q) :
  ((a <= b)%Q <-> (c <= d)%Q) -> Qle_bool a b = Qle_bool c d.
Proof.
  intros H. destruct (Qle_bool a b) eqn:E1, (Qle_bool c d) eqn:E2; auto.
  - apply Qle_bool_iff, H, Qle_bool_iff in E1. congruence.
  - apply Qle_bool_iff, H, Qle_bool_iff in E2. congruence.
Qed.

Lemma byScoreDesc_key {T} (y x : SearchResult T) :
  Qle_bool 0 (byScoreDesc y x) = Qle_bool (score y) (score x).
Proof. apply Qle_bool_eq. unfold byScoreDesc. split; intros; lra. Qed.

Lemma sort_Descending {T} (l : list (SearchResult T)) :
  Descending (sort byScoreDesc l).
Proof. apply (sort_sorted byScoreDesc score byScoreDesc_key). Qed.

Lemma sort_withScore {T} (s : Q) (l : list (SearchResult T)) :
  withScore s (sort byScoreDesc l) = withScore s l.
Proof. apply (sort_stable byScoreDesc score byScoreDesc_key). Qed.

Section Category.

Context {T : Type} `{BaseLocation T}.

Lemma searchInItem_total (x : T) (query : jsstring)
    (opts : RequiredSearchOptions) :
  anyField opts = true -> exists r, searchInItem x query opts = Ok r.
Proof.
  unfold anyField, searchInItem, fieldScores. intros Hf.
  destruct (includeEnglish opts), (includeBengali opts), (includeSlug opts);
    try discriminate; simpl;
    match goal with
    | |- context [if ?c then _ else _] => destruct c
    end; eexists; reflexivity.
Qed.

(** With the three flags off there is no score to reduce. *)
Lemma searchInItem_throws (x : T) (query : jsstring)
    (opts : RequiredSearchOptions) :
  anyField opts = false -> searchInItem x query opts = Throw TypeError.
Proof.
  unfold anyField, searchInItem, fieldScores. intros Hf.
  destruct (includeEnglish opts), (includeBengali opts), (includeSlug opts);
    try discriminate; reflexivity.
Qed.

Lemma collect_hits (xs : list T) (query : jsstring)
    (opts : RequiredSearchOptions) (found : list (SearchResult T)) :
  collect xs query opts = Ok found -> found = hits xs query opts.
Proof.
  revert found. induction xs as [|x xs IH]; simpl; intros found E.
  - now injection E as <-.
  - destruct (searchInItem x query opts) as [r|e]; simpl in E; [|discriminate].
    destruct (collect xs query opts) as [found'|e]; simpl in E; [|discriminate].
    injection E as <-. rewrite (IH found' eq_refl).
    destruct r; reflexivity.
Qed.

Lemma collect_total (xs : list T) (query : jsstring)
    (opts : RequiredSearchOptions) :
  anyField opts = true -> exists found, collect xs query opts = Ok found.
Proof.
  intros Hf. induction xs as [|x xs [found IH]]; simpl.
  - eexists; reflexivity.
  - destruct (searchInItem_total x query opts Hf) as [r ->]. rewrite IH.
    simpl. eexists; reflexivity.
Qed.

Lemma searchCategory_inv (t : LocationType) (xs : list T) (query : jsstring)
    (opts : RequiredSearchOptions) (out : list (SearchResult T)) :
  searchCategory t xs query opts = Ok out ->
  (includesType (types opts) t = false /\ out = []) \/
  (includesType (types opts) t = true /\
   out = slice0 (sort byScoreDesc (hits xs query opts)) (limit opts)).
Proof.
  unfold searchCategory. destruct (includesType (types opts) t).
  - destruct (collect xs query opts) as [found|e] eqn:E; simpl; [|discriminate].
    intros [= <-]. right. split; [reflexivity|].
    now rewrite (collect_hits _ _ _ _ E).
  - intros [= <-]. now left.
Qed.

Lemma searchCategory_total (t : LocationType) (xs : list T) (query : jsstring)
    (opts : RequiredSearchOptions) :
  anyField opts = true -> exists out, searchCategory t xs query opts = Ok out.
Proof.
  intros Hf. unfold searchCategory. destruct (includesType (types opts) t).
  - destruct (collect_total xs query opts Hf) as [found ->]. simpl.
    eexists; reflexivity.
  - eexists; reflexivity.
Qed.

Lemma slice_sort_Ranked (xs : list T) (query : jsstring)
    (opts : RequiredSearchOptions) (k : Z) :
  Ranked (slice0 (sort byScoreDesc (hits xs query opts)) k) xs query opts.
Proof.
  destruct (slice0_firstn (sort byScoreDesc (hits xs query opts)) k) as [n ->].
  split.
  - apply StronglySorted_firstn, sort_Descending.
  - intros s. rewrite <- (sort_withScore s (hits xs query opts)).
    apply Prefix_filter, firstn_Prefix.
Qed.

Lemma nil_Ranked (xs : list T) (query : jsstring)
    (opts : RequiredSearchOptions) :
  Ranked [] xs query opts.
Proof.
  split; [constructor|]. intros s. eexists. reflexivity.
Qed.

Lemma searchCategory_Ranked (t : LocationType) (xs : list T)
    (query : jsstring) (opts : RequiredSearchOptions)
    (out : list (SearchResult T)) :
  searchCategory t xs query opts = Ok out -> Ranked out xs query opts.
Proof.
  intros E. destruct (searchCategory_inv _ _ _ _ _ E) as [[_ ->]|[_ ->]].
  - apply nil_Ranked.
  - apply slice_sort_Ranked.
Qed.

Lemma searchInItem_item (x : T) (query : jsstring)
    (opts : RequiredSearchOptions) (r : SearchResult T) :
  searchInItem x query opts = Ok (Some r) -> item r = x.
Proof.
  unfold searchInItem. destruct (reduce better _) as [b|]; simpl; [|discriminate].
  destruct (Qle_bool _ _); [|discriminate]. now intros [= <-].
Qed.

Lemma hits_In (xs : list T) (query : jsstring) (opts : RequiredSearchOptions)
    (r : SearchResult T) :
  In r (hits xs query opts) <->
  exists x, In x xs /\ searchInItem x query opts = Ok (Some r).
Proof.
  unfold hits. rewrite in_flat_map. split.
  - intros [x [Hx Hr]]. exists x. split; [exact Hx|].
    destruct (searchInItem x query opts) as [[r'|]|]; simpl in Hr; try tauto.
    destruct Hr as [->|[]]. reflexivity.
  - intros [x [Hx E]]. exists x. split; [exact Hx|]. rewrite E. now left.
Qed.

(** The matches are those of the entities that match, in their order. *)
Lemma hits_items (xs : list T) (query : jsstring)
    (opts : RequiredSearchOptions) :
  map item (hits xs query opts) = filter (isHit query opts) xs.
Proof.
  induction xs as [|x xs IH]; [reflexivity|].
  cbn [hits flat_map filter]. unfold isHit at 1.
  destruct (searchInItem x query opts) as [[r|]|] eqn:E; cbn [app map];
    try exact IH.
  rewrite (searchInItem_item _ _ _ _ E). f_equal. exact IH.
Qed.

Lemma collect_items (xs : list T) (query : jsstring)
    (opts : RequiredSearchOptions) (found : list (SearchResult T)) :
  collect xs query opts = Ok found ->
  forall x, In x xs -> exists r, searchInItem x query opts = Ok r.
Proof.
  revert found. induction xs as [|y xs IH]; simpl; intros found E x Hx; [tauto|].
  destruct (searchInItem y query opts) as [r|e] eqn:Ey; simpl in E; [|discriminate].
  destruct (collect xs query opts) as [found'|e]; simpl in E; [|discriminate].
  destruct Hx as [<-|Hx]; [now exists r | now apply (IH found')].
Qed.

Lemma searchCategory_items (t : LocationType) (xs : list T) (query : jsstring)
    (opts : RequiredSearchOptions) (out : list (SearchResult T)) :
  searchCategory t xs query opts = Ok out ->
  includesType (types opts) t = true ->
  forall x, In x xs -> exists r, searchInItem x query opts = Ok r.
Proof.
  unfold searchCategory. intros E Ht. rewrite Ht in E.
  destruct (collect xs query opts) as [found|e] eqn:Ec; [|discriminate].
  now apply (collect_items xs query opts found).
Qed.

(** With [limit = 1] a category yields its best match, if it has one. *)
Lemma searchCategory_top (t : LocationType) (xs : list T) (query : jsstring)
    (opts : RequiredSearchOptions) (out : list (SearchResult T)) :
  searchCategory t xs query opts = Ok out -> limit opts = 1 ->
  (forall r, In r out ->
     includesType (types opts) t = true /\
     exists x, In x xs /\ searchInItem x query opts = Ok (Some r)) /\
  (includesType (types opts) t = true ->
   forall x r, In x xs -> searchInItem x query opts = Ok (Some r) ->
     exists h, In h out /\ (score r <= score h)%Q).
Proof.
  intros E Hl. destruct (searchCategory_inv _ _ _ _ _ E) as [[Hn ->]|[Hy ->]].
  - split; [intros r []| congruence].
  - rewrite Hl. split.
    + intros r Hr. split; [exact Hy|]. apply hits_In.
      destruct (slice0_firstn (sort byScoreDesc (hits xs query opts)) 1)
        as [n En].
      rewrite En in Hr.
      apply (sort_In byScoreDesc). eapply Prefix_In; [apply firstn_Prefix|].
      exact Hr.
    + intros _ x r Hx Er.
      assert (Hin : In r (hits xs query opts)) by (apply hits_In; eauto).
      destruct (sort byScoreDesc (hits xs query opts)) as [|h rest] eqn:Es.
      * apply (sort_In byScoreDesc) in Hin. rewrite Es in Hin. destruct Hin.
      * exists h. split.
        -- unfold slice0. cbn [length].
           replace (Z.min 1 (Z.of_nat (S (length rest)))) with 1 by lia.
           simpl. now left.
        -- now apply (sort_head_max byScoreDesc score byScoreDesc_key _ _ _ Es).
Qed.

(** A location and its view as [AnyLocation] score alike. *)
Lemma searchInItem_widen (inj : T -> AnyLocation)
    (Hname : forall x, name (inj x) = name x)
    (Hbn : forall x, bnName (inj x) = bnName x)
    (Hslug : forall x, slug (inj x) = slug x)
    (x : T) (query : jsstring) (opts : RequiredSearchOptions) :
  searchInItem (inj x) query opts
  = match searchInItem x query opts with
    | Ok (Some r) => Ok (Some (widen inj r))
    | Ok None => Ok None
    | Throw e => Throw e
    end.
Proof.
  unfold searchInItem, fieldScores. rewrite Hname, Hbn, Hslug.
  destruct (reduce better _) as [b|]; simpl; [|reflexivity].
  destruct (Qle_bool _ _); reflexivity.
Qed.

(** The part of [searched] and of [flatten] that one category provides. *)
Lemma searchCategory_any (inj : T -> AnyLocation)
    (Hname : forall x, name (inj x) = name x)
    (Hbn : forall x, bnName (inj x) = bnName x)
    (Hslug : forall x, slug (inj x) = slug x)
    (t : LocationType) (xs : list T) (query : jsstring)
    (opts : RequiredSearchOptions) (out : list (SearchResult T)) :
  searchCategory t xs query opts = Ok out -> limit opts = 1 ->
  let part := if includesType (types opts) t then map inj xs else [] in
  (forall w, In w (map (widen inj) out) ->
     In (item w) part /\ searchInItem (item w) query opts = Ok (Some w)) /\
  (forall e r, In e part -> searchInItem e query opts = Ok (Some r) ->
     exists h, In h (map (widen inj) out) /\ (score r <= score h)%Q) /\
  (forall e, In e part -> exists res, searchInItem e query opts = Ok res).
Proof.
  intros E Hl part.
  destruct (searchCategory_top _ _ _ _ _ E Hl) as [Hout Htop].
  pose proof (searchCategory_items _ _ _ _ _ E) as Hitems.
  subst part. split; [|split].
  - intros w Hw. apply in_map_iff in Hw. destruct Hw as [r0 [<- Hr0]].
    destruct (Hout r0 Hr0) as [Hy [x [Hx Ex]]]. rewrite Hy.
    pose proof (searchInItem_item _ _ _ _ Ex) as Ei. simpl. rewrite Ei.
    split; [now apply in_map|].
    rewrite (searchInItem_widen inj Hname Hbn Hslug), Ex. reflexivity.
  - intros e r He Er. destruct (includesType (types opts) t); [|destruct He].
    apply in_map_iff in He. destruct He as [x [<- Hx]].
    rewrite (searchInItem_widen inj Hname Hbn Hslug) in Er.
    destruct (searchInItem x query opts) as [[r0|]|] eqn:Ex; try discriminate.
    injection Er as <-.
    destruct (Htop eq_refl x r0 Hx Ex) as [h [Hh Hle]].
    exists (widen inj h). split; [now apply in_map | exact Hle].
  - intros e He. destruct (includesType (types opts) t); [|destruct He].
    apply in_map_iff in He. destruct He as [x [<- Hx]].
    rewrite (searchInItem_widen inj Hname Hbn Hslug).
    destruct (Hitems eq_refl x Hx) as [[r0|] ->]; eexists; reflexivity.
Qed.

End Category.

(** What a normal return of [search] was computed from. *)
Lemma search_inv (query : jsstring) (options : SearchOptions)
    (r : LocationSearchResult) :
  search query options = Ok r ->
  let opts := spread defaultSearchOptions options in
  (isBlank query = true /\ r = emptyResult) \/
  (isBlank query = false /\
   searchCategory division divisionsData (trim query) opts = Ok (divisions r) /\
   searchCategory district districtsData (trim query) opts = Ok (districts r) /\
   searchCategory upazila upazilasData (trim query) opts = Ok (upazilas r)).
Proof.
  intros E opts. unfold search in E. fold opts in E.
  destruct (isBlank query).
  - left. now injection E as <-.
  - right.
    destruct (searchCategory division _ _ _) as [divs|]; [|discriminate].
    destruct (searchCategory district _ _ _) as [dists|]; [|discriminate].
    destruct (searchCategory upazila _ _ _) as [upzs|]; [|discriminate].
    simpl in E. injection E as <-. simpl. auto.
Qed.

Lemma search_total (query : jsstring) (options : SearchOptions) :
  anyField (spread defaultSearchOptions options) = true ->
  exists r, search query options = Ok r.
Proof.
  intros Hf. unfold search. destruct (isBlank query); [eexists; reflexivity|].
  destruct (searchCategory_total division divisionsData (trim query) _ Hf)
    as [divs ->].
  destruct (searchCategory_total district districtsData (trim query) _ Hf)
    as [dists ->].
  destruct (searchCategory_total upazila upazilasData (trim query) _ Hf)
    as [upzs ->].
  simpl. eexists; reflexivity.
Qed.

(** C4.  Each of the three sequences of a search result is sorted by
    non-increasing score, and results of equal score stand in the order of
    the catalog: for every score, the results having it are an initial
    segment of the catalog's matches having it. *)
Theorem search_ranked (query : jsstring) (options : SearchOptions)
    (r : LocationSearchResult) :
  search query options = Ok r ->
  let opts := spread defaultSearchOptions options in
  Ranked (divisions r) divisionsData (trim query) opts /\
  Ranked (districts r) districtsData (trim query) opts /\
  Ranked (upazilas r) upazilasData (trim query) opts.
Proof.
  intros E opts.
  destruct (search_inv _ _ _ E) as [[_ ->] | [_ [E1 [E2 E3]]]].
  - simpl. split; [|split]; apply nil_Ranked.
  - fold opts in E1, E2, E3.
    split; [|split]; eapply searchCategory_Ranked; eassumption.
Qed.

(** C5, for a limit that is not negative.  No sequence of a search result is
    longer than [limit]; each of the three has the whole limit to itself. *)
Theorem search_limit (query : jsstring) (options : SearchOptions)
    (r : LocationSearchResult) :
  search query options = Ok r ->
  let opts := spread defaultSearchOptions options in
  0 <= limit opts ->
  Z.of_nat (length (divisions r)) <= limit opts /\
  Z.of_nat (length (districts r)) <= limit opts /\
  Z.of_nat (length (upazilas r)) <= limit opts.
Proof.
  intros E opts Hl.
  destruct (search_inv _ _ _ E) as [[_ ->] | [_ [E1 [E2 E3]]]].
  - repeat split; exact Hl.
  - fold opts in E1, E2, E3.
    apply searchCategory_inv in E1, E2, E3.
    destruct E1 as [[_ ->]|[_ ->]], E2 as [[_ ->]|[_ ->]],
             E3 as [[_ ->]|[_ ->]];
      repeat split; try exact Hl; now apply slice0_length.
Qed.

(** C10.  A search result carries the three sequences; the sequence of a
    category that is not among [types] is empty, so only the listed
    categories contribute results. *)
Theorem search_types (query : jsstring) (options : SearchOptions)
    (r : LocationSearchResult) :
  search query options = Ok r ->
  let opts := spread defaultSearchOptions options in
  (includesType (types opts) division = false -> divisions r = []) /\
  (includesType (types opts) district = false -> districts r = []) /\
  (includesType (types opts) upazila = false -> upazilas r = []).
Proof.
  intros E opts.
  destruct (search_inv _ _ _ E) as [[_ ->] | [_ [E1 [E2 E3]]]].
  - simpl. auto.
  - fold opts in E1, E2, E3.
    apply searchCategory_inv in E1, E2, E3.
    repeat split; intros Hn;
      [destruct E1 as [[_ ->]|[Hy _]] | destruct E2 as [[_ ->]|[Hy _]]
       | destruct E3 as [[_ ->]|[Hy _]]]; auto; congruence.
Qed.

(** What [quickSearch] sees after a search with [limit = 1] on a query that
    is not blank. *)
Lemma flatten_top (query : jsstring) (options : SearchOptions)
    (r : LocationSearchResult) :
  search query options = Ok r -> isBlank query = false ->
  let opts := spread defaultSearchOptions options in
  limit opts = 1 ->
  (forall w, In w (flatten r) ->
     In (item w) (searched opts)
     /\ searchInItem (item w) (trim query) opts = Ok (Some w)) /\
  (forall e r', In e (searched opts) ->
     searchInItem e (trim query) opts = Ok (Some r') ->
     exists h, In h (flatten r) /\ (score r' <= score h)%Q) /\
  (forall e, In e (searched opts) ->
     exists res, searchInItem e (trim query) opts = Ok res).
Proof.
  intros E Hb opts Hl.
  destruct (search_inv _ _ _ E) as [[Hb' _] | [_ [E1 [E2 E3]]]]; [congruence|].
  fold opts in E1, E2, E3.
  destruct (searchCategory_any ADivision (fun _ => eq_refl) (fun _ => eq_refl)
              (fun _ => eq_refl) _ _ _ _ _ E1 Hl) as [A1 [A2 A3]].
  destruct (searchCategory_any ADistrict (fun _ => eq_refl) (fun _ => eq_refl)
              (fun _ => eq_refl) _ _ _ _ _ E2 Hl) as [B1 [B2 B3]].
  destruct (searchCategory_any AUpazila (fun _ => eq_refl) (fun _ => eq_refl)
              (fun _ => eq_refl) _ _ _ _ _ E3 Hl) as [C1 [C2 C3]].
  unfold flatten, searched. split; [|split].
  - intros w Hw. rewrite !in_app_iff in *.
    destruct Hw as [Hw|[Hw|Hw]];
      [destruct (A1 w Hw) | destruct (B1 w Hw) | destruct (C1 w Hw)]; auto.
  - intros e r' He Er. rewrite !in_app_iff in He.
    destruct He as [He|[He|He]];
      [destruct (A2 e r' He Er) as [h [Hh Hle]]
      | destruct (B2 e r' He Er) as [h [Hh Hle]]
      | destruct (C2 e r' He Er) as [h [Hh Hle]]];
      exists h; rewrite !in_app_iff; auto.
  - intros e He. rewrite !in_app_iff in He.
    destruct He as [He|[He|He]]; auto.
Qed.

(** C7.  [quickSearch] runs [search] with [limit = 1], flattens the three
    sequences, sorts them by descending score and takes the first: it
    answers none when no searched entity matches, and otherwise an entity
    whose score is the largest among all searched entities that match. *)
Theorem quickSearch_best (query : jsstring) (options : SearchOptions)
    (answer : option AnyLocation) :
  quickSearch query options = Ok answer ->
  let opts := spread defaultSearchOptions (withLimit options 1) in
  (exists r, search query (withLimit options 1) = Ok r /\
     answer = option_map item (first (sort byScoreDesc (flatten r)))) /\
  match answer with
  | None =>
      isBlank query = true \/
      forall e, In e (searched opts) ->
        searchInItem e (trim query) opts = Ok None
  | Some e =>
      In e (searched opts) /\
      exists r, Matches e (trim query) opts r /\
        forall e' r', In e' (searched opts) ->
          Matches e' (trim query) opts r' -> (score r' <= score r)%Q
  end.
Proof.
  intros E opts. unfold quickSearch in E.
  destruct (search query (withLimit options 1)) as [r|] eqn:Es; [|discriminate].
  simpl in E.
  assert (Hnone : flatten r = [] ->
            isBlank query = true \/
            forall e, In e (searched opts) ->
              searchInItem e (trim query) opts = Ok None).
  { intros Hnil. destruct (isBlank query) eqn:Hb; [now left|]. right.
    destruct (flatten_top _ _ _ Es Hb eq_refl) as [_ [F2 F3]].
    fold opts in F2, F3. intros e He.
    destruct (F3 e He) as [[r'|] Er]; [|exact Er].
    destruct (F2 e r' He Er) as [h [Hh _]]. rewrite Hnil in Hh. destruct Hh. }
  destruct (flatten r) as [|w ws] eqn:Ef.
  - simpl in E. injection E as <-. split; [|now apply Hnone].
    exists r. rewrite Ef. auto.
  - cbn [length] in E.
    destruct (Z.eqb_spec (Z.of_nat (S (length ws))) 0) as [Hz|_]; [lia|].
    destruct (sort byScoreDesc (w :: ws)) as [|top rest] eqn:Esort.
    { pose proof (sort_length byScoreDesc (w :: ws)) as Hlen.
      rewrite Esort in Hlen. discriminate. }
    injection E as <-. split.
    { exists r. rewrite Ef, Esort. auto. }
    destruct (sort_head_max byScoreDesc score byScoreDesc_key _ _ _ Esort)
      as [Hin Hmax].
    assert (Hb : isBlank query = false).
    { destruct (isBlank query) eqn:Hb; [|reflexivity].
      destruct (search_inv _ _ _ Es) as [[_ ->] | [Hb' _]]; [|congruence].
      discriminate Ef. }
    destruct (flatten_top _ _ _ Es Hb eq_refl) as [F1 [F2 _]].
    fold opts in F1, F2. rewrite Ef in F1, F2.
    destruct (F1 top Hin) as [Hs Hm].
    split; [exact Hs|]. exists top. split; [exact Hm|].
    intros e' r' He' Hm'. destruct (F2 e' r' He' Hm') as [h [Hh Hle]].
    eapply Qle_trans; [exact Hle | now apply Hmax].
Qed.

End RankedSearch.

(** ** Autocomplete *)

Section Autocomplete.

Context {host : Runtime} {data : Catalog}.

Lemma Qle_bool_inject (z : Z) : Qle_bool 0 (inject_Z z) = (0 <=? z).
Proof. unfold Qle_bool, inject_Z. simpl. now rewrite Z.mul_1_r. Qed.

Lemma slice0_map {A B} (f : A -> B) (l : list A) (k : Z) :
  map f (slice0 l k) = slice0 (map f l) k.
Proof. unfold slice0. now rewrite length_map, firstn_map. Qed.

Lemma insert_pass {A} (cmp : A -> A -> Q) (x : A) (l1 l2 : list A) :
  Forall (fun y => Qle_bool 0 (cmp y x) = false) l1 ->
  insert cmp x (l1 ++ l2) = l1 ++ insert cmp x l2.
Proof.
  induction 1 as [|y l1 Hy _ IH]; simpl; [reflexivity|].
  now rewrite Hy, IH.
Qed.

Lemma insert_stop {A} (cmp : A -> A -> Q) (x : A) (l : list A) :
  Forall (fun y => Qle_bool 0 (cmp y x) = true) l ->
  insert cmp x l = x :: l.
Proof.
  destruct 1 as [|y l Hy _]; simpl; [reflexivity | now rewrite Hy].
Qed.

Lemma checkStartsWith_tagged (opts : RequiredSearchOptions) (q : jsstring)
    (results : list Prioritized) (nm bn : jsstring) (type : LocationType)
    (it : AnyLocation) :
  checkStartsWith opts q results nm bn type it
  = results ++ tagged opts q {| sg_name := nm; sg_bnName := bn;
                                sg_type := type; sg_item := it |}.
Proof.
  unfold checkStartsWith, tagged, onSecondaryOnly, onPrimary, folded. simpl.
  destruct (includeEnglish opts && startsWith _ q); simpl; [reflexivity|].
  destruct (includeBengali opts && startsWith bn q); simpl;
    [reflexivity | now rewrite app_nil_r].
Qed.

Lemma scanCategory_tagged {T} `{BaseLocation T} (opts : RequiredSearchOptions)
    (q : jsstring) (type : LocationType) (inj : T -> AnyLocation)
    (xs : list T) (results : list Prioritized) :
  scanCategory opts q type inj xs results
  = results ++ flat_map (tagged opts q)
                 (if includesType (types opts) type
                  then map (suggest type inj) xs else []).
Proof.
  unfold scanCategory. destruct (includesType (types opts) type);
    [|now rewrite app_nil_r].
  revert results. induction xs as [|x xs IH]; intros results; simpl.
  - now rewrite app_nil_r.
  - rewrite IH, checkStartsWith_tagged, <- app_assoc. reflexivity.
Qed.

(** The stable sort by priority puts the elements of priority 1 first. *)
Lemma sort_tagged (opts : RequiredSearchOptions) (q : jsstring)
    (cands : list Suggestion) :
  map entry (sort byPriority (flat_map (tagged opts q) cands))
  = filter (onPrimary opts q) cands ++ filter (onSecondaryOnly opts q) cands.
Proof.
  enough (E : sort byPriority (flat_map (tagged opts q) cands)
              = map (fun e => {| entry := e; priority := 1 |})
                    (filter (onPrimary opts q) cands)
                ++ map (fun e => {| entry := e; priority := 2 |})
                       (filter (onSecondaryOnly opts q) cands)).
  { rewrite E, map_app, !map_map. simpl. now rewrite !map_id. }
  induction cands as [|e cands IH]; [reflexivity|].
  cbn [flat_map filter]. unfold tagged at 1.
  destruct (onPrimary opts q e) eqn:P.
  - assert (S : onSecondaryOnly opts q e = false)
      by (unfold onSecondaryOnly; now rewrite P).
    rewrite S. cbn [app sort]. rewrite IH. cbn [map app].
    apply insert_stop. apply Forall_app. split; apply Forall_forall;
      intros y Hy; apply in_map_iff in Hy; destruct Hy as [? [<- _]];
      reflexivity.
  - destruct (onSecondaryOnly opts q e) eqn:S.
    + cbn [app sort]. rewrite IH. cbn [map].
      rewrite insert_pass.
      * f_equal. apply insert_stop. apply Forall_forall.
        intros y Hy; apply in_map_iff in Hy; destruct Hy as [? [<- _]].
        reflexivity.
      * apply Forall_forall.
        intros y Hy; apply in_map_iff in Hy; destruct Hy as [? [<- _]].
        reflexivity.
    + cbn [app]. exact IH.
Qed.

(** The result of [autocomplete] for a query that is not blank. *)
Lemma autocomplete_eq (query : jsstring) (options : SearchOptions) :
  isBlank query = false ->
  let opts := spread defaultSearchOptions options in
  let q := prefixQuery opts query in
  autocomplete query options
  = slice0 (filter (onPrimary opts q) (candidates opts)
            ++ filter (onSecondaryOnly opts q) (candidates opts))
           (limit opts).
Proof.
  intros Hb opts q. unfold autocomplete. rewrite Hb. fold opts.
  change (if caseSensitive opts then trim query else toLowerCase (trim query))
    with q.
  rewrite !scanCategory_tagged. cbn [app].
  rewrite <- !flat_map_app, <- app_assoc. fold (candidates opts).
  now rewrite slice0_map, sort_tagged.
Qed.

Lemma slice0_all {A} (l : list A) (k : Z) :
  Z.of_nat (length l) <= k -> slice0 l k = l.
Proof.
  intros Hk. unfold slice0. destruct (Z.ltb_spec k 0); [lia|].
  replace (Z.min k (Z.of_nat (length l))) with (Z.of_nat (length l)) by lia.
  rewrite Nat2Z.id. apply firstn_all.
Qed.

Lemma slice0_In {A} (l : list A) (k : Z) (x : A) :
  In x (slice0 l k) -> In x l.
Proof.
  destruct (slice0_firstn l k) as [n ->]. apply Prefix_In, firstn_Prefix.
Qed.

Lemma filter_disjoint_length {A} (p s : A -> bool) (l : list A) :
  (forall x, s x = true -> p x = false) ->
  (length (filter p l ++ filter s l) <= length l)%nat.
Proof.
  intros D. rewrite length_app.
  induction l as [|x l IH]; simpl; [lia|].
  destruct (p x) eqn:P, (s x) eqn:S; simpl; try lia.
  rewrite (D x S) in P. discriminate.
Qed.

(** In an initial segment of [A ++ B], whatever precedes an element that
    satisfies [p] satisfies [p], when [A] satisfies it and [B] does not. *)
Lemma Prefix_front {A} (p : A -> bool) (pre : list A) (e : A) :
  forall front back,
    Prefix (pre ++ [e]) (front ++ back) ->
    Forall (fun x => p x = true) front ->
    Forall (fun x => p x = false) back ->
    p e = true -> Forall (fun x => p x = true) pre.
Proof.
  induction pre as [|y pre IH]; intros front back [rest E] Hf Hb He;
    [constructor|].
  destruct front as [|a front].
  - exfalso. simpl in E. rewrite Forall_forall in Hb.
    assert (Hin : In e back).
    { rewrite E. right. rewrite !in_app_iff. left. right. now left. }
    rewrite (Hb e Hin) in He. discriminate.
  - simpl in E. injection E as -> E. inversion Hf; subst.
    constructor; [assumption|].
    apply (IH front back); auto. now exists rest.
Qed.

End Autocomplete.

(** Filtering by what the shapes decide. *)
Lemma filter_shape (p : Suggestion -> bool) :
  (forall a b, shape a = shape b -> p a = p b) ->
  forall l1 l2, map shape l1 = map shape l2 ->
    map shape (filter p l1) = map shape (filter p l2).
Proof.
  intros Hp. induction l1 as [|a l1 IH]; intros [|b l2] E; try discriminate;
    [reflexivity|].
  pose proof (f_equal (hd (shape a)) E) as Eh.
  pose proof (f_equal (@tl _) E) as Et. cbn [map hd tl] in Eh, Et.
  cbn [filter]. rewrite (Hp a b Eh).
  destruct (p b); cbn [map]; [rewrite Eh; f_equal|]; now apply IH.
Qed.

Lemma shape_names (a b : Suggestion) :
  shape a = shape b -> sg_name a = sg_name b /\ sg_bnName a = sg_bnName b.
Proof. unfold shape. intros [= -> -> _]. auto. Qed.

Lemma onPrimary_shape {host : Runtime} (opts : RequiredSearchOptions)
    (q : jsstring) (a b : Suggestion) :
  shape a = shape b -> onPrimary opts q a = onPrimary opts q b.
Proof.
  intros E. destruct (shape_names a b E) as [En _].
  unfold onPrimary. now rewrite En.
Qed.

Lemma onSecondaryOnly_shape {host : Runtime} (opts : RequiredSearchOptions)
    (q : jsstring) (a b : Suggestion) :
  shape a = shape b -> onSecondaryOnly opts q a = onSecondaryOnly opts q b.
Proof.
  intros E. destruct (shape_names a b E) as [_ Eb].
  unfold onSecondaryOnly. now rewrite (onPrimary_shape opts q a b E), Eb.
Qed.

(** The candidates of a catalog with other slugs. *)
Lemma candidates_reslug {data : Catalog}
    (f : jsstring -> jsstring) (opts : RequiredSearchOptions) :
  map shape (@candidates (reslug f data) opts) = map shape (candidates opts).
Proof.
  unfold candidates, reslug. simpl. rewrite !map_app.
  destruct (includesType (types opts) division),
           (includesType (types opts) district),
           (includesType (types opts) upazila);
    rewrite ?map_map; reflexivity.
Qed.

(** C6.  The suggestions of [autocomplete] are the entities that match on
    their primary name, in catalog order (divisions, districts, upazilas),
    followed by those that match on their secondary name only, in catalog
    order, cut at [limit]; so nothing but a primary match precedes a primary
    match.  Slugs are not read: other slugs give the same names and types. *)
Theorem autocomplete_order {host : Runtime} {data : Catalog}
    (query : jsstring) (options : SearchOptions) :
  let opts := spread defaultSearchOptions options in
  let q := prefixQuery opts query in
  autocomplete query options
  = (if isBlank query then []
     else slice0 (filter (onPrimary opts q) (candidates opts)
                  ++ filter (onSecondaryOnly opts q) (candidates opts))
                 (limit opts))
  /\ (forall pre e post,
        autocomplete query options = pre ++ e :: post ->
        onPrimary opts q e = true ->
        Forall (fun x => onPrimary opts q x = true) pre)
  /\ (forall f,
        map shape (@autocomplete host (reslug f data) query options)
        = map shape (autocomplete query options)).
Proof.
  intros opts q.
  assert (E1 : autocomplete query options
    = (if isBlank query then []
       else slice0 (filter (onPrimary opts q) (candidates opts)
                    ++ filter (onSecondaryOnly opts q) (candidates opts))
                   (limit opts))).
  { destruct (isBlank query) eqn:Hb; [unfold autocomplete; now rewrite Hb|].
    now apply autocomplete_eq. }
  split; [exact E1|]. split.
  - intros pre e post E He. rewrite E1 in E.
    destruct (isBlank query); [now destruct pre|].
    destruct (slice0_firstn
                (filter (onPrimary opts q) (candidates opts)
                 ++ filter (onSecondaryOnly opts q) (candidates opts))
                (limit opts)) as [n En].
    rewrite En in E.
    apply (Prefix_front (onPrimary opts q) pre e
             (filter (onPrimary opts q) (candidates opts))
             (filter (onSecondaryOnly opts q) (candidates opts))).
    + eapply Prefix_trans; [|apply (firstn_Prefix n)].
      rewrite E. exists post. now rewrite <- app_assoc.
    + apply Forall_forall. intros x Hx. now apply filter_In in Hx.
    + apply Forall_forall. intros x Hx. apply filter_In in Hx.
      destruct Hx as [_ Hx]. unfold onSecondaryOnly in Hx.
      apply andb_true_iff in Hx. destruct Hx as [Hx _].
      now apply negb_true_iff in Hx.
    + exact He.
  - intros f. destruct (isBlank query) eqn:Hb.
    + unfold autocomplete. now rewrite Hb.
    + rewrite E1.
      rewrite (@autocomplete_eq host (reslug f data) query options Hb).
      fold opts. change (prefixQuery opts query) with q.
      rewrite !slice0_map, !map_app.
      rewrite (filter_shape _ (onPrimary_shape opts q) _ _
                 (candidates_reslug f opts)).
      rewrite (filter_shape _ (onSecondaryOnly_shape opts q) _ _
                 (candidates_reslug f opts)).
      reflexivity.
Qed.

(** C9, as the code has it.  In [autocomplete] with [caseSensitive = false]
    the primary name is folded before it is compared with the folded,
    trimmed query, and the secondary name is compared with that query as it
    is stored: the suggestions are candidates whose folded primary name, or
    whose stored secondary name, starts with the query, and when [limit]
    cuts nothing they are all of them. *)
Theorem autocomplete_folding {host : Runtime} {data : Catalog}
    (query : jsstring) (options : SearchOptions) :
  let opts := spread defaultSearchOptions options in
  let q := toLowerCase (trim query) in
  let matched (e : Suggestion) :=
    (includeEnglish opts = true /\ StartsWith (toLowerCase (sg_name e)) q)
    \/ (includeBengali opts = true /\ StartsWith (sg_bnName e) q) in
  caseSensitive opts = false -> isBlank query = false ->
  (forall e, In e (autocomplete query options) ->
     In e (candidates opts) /\ matched e)
  /\ (Z.of_nat (length (candidates opts)) <= limit opts ->
      forall e, In e (candidates opts) -> matched e ->
        In e (autocomplete query options)).
Proof.
  intros opts q matched Hcs Hb.
  pose proof (autocomplete_eq query options Hb) as E. cbv zeta in E.
  fold opts in E. unfold prefixQuery, folded in E. rewrite Hcs in E. fold q in E.
  assert (M : forall e, matched e <->
                onPrimary opts q e = true \/ onSecondaryOnly opts q e = true).
  { intros e. unfold matched, StartsWith, onSecondaryOnly, onPrimary, folded.
    rewrite Hcs.
    rewrite <- !startsWith_spec.
    destruct (includeEnglish opts), (includeBengali opts),
      (startsWith (toLowerCase (sg_name e)) q), (startsWith (sg_bnName e) q);
      simpl; intuition congruence. }
  rewrite E. split.
  - intros e He. apply slice0_In in He. apply in_app_or in He.
    rewrite !filter_In in He. rewrite M. tauto.
  - intros Hlen e He Hm. rewrite slice0_all.
    + apply in_or_app. rewrite !filter_In. apply M in Hm. tauto.
    + pose proof (filter_disjoint_length (onPrimary opts q)
                    (onSecondaryOnly opts q) (candidates opts)) as Hl.
      assert (D : forall x, onSecondaryOnly opts q x = true ->
                    onPrimary opts q x = false).
      { intros x Hx. unfold onSecondaryOnly in Hx.
        apply andb_true_iff in Hx. destruct Hx as [Hx _].
        now apply negb_true_iff in Hx. }
      specialize (Hl D). lia.
Qed.

(** ** Totality *)

Section Totality.

Context {host : Runtime} {data : Catalog}.

Lemma collect_none {T} `{BaseLocation T} (xs : list T) (query : jsstring)
    (opts : RequiredSearchOptions) :
  (forall x, In x xs -> searchInItem x query opts = Ok None) ->
  collect xs query opts = Ok [].
Proof.
  induction xs as [|x xs IH]; intros Hn; simpl; [reflexivity|].
  rewrite (Hn x (or_introl eq_refl)), IH; [reflexivity|].
  intros y Hy. apply Hn. now right.
Qed.

Lemma searchCategory_none {T} `{BaseLocation T} (inj : T -> AnyLocation)
    (Hname : forall x, name (inj x) = name x)
    (Hbn : forall x, bnName (inj x) = bnName x)
    (Hslug : forall x, slug (inj x) = slug x)
    (t : LocationType) (xs : list T) (query : jsstring)
    (opts : RequiredSearchOptions) :
  (forall e, In e (if includesType (types opts) t then map inj xs else []) ->
     searchInItem e query opts = Ok None) ->
  searchCategory t xs query opts = Ok [].
Proof.
  intros Hn. unfold searchCategory.
  destruct (includesType (types opts) t); [|reflexivity].
  rewrite collect_none; [simpl; now rewrite slice0_nil|].
  intros x Hx. specialize (Hn (inj x) (in_map inj _ _ Hx)).
  rewrite (searchInItem_widen inj Hname Hbn Hslug) in Hn.
  destruct (searchInItem x query opts) as [[r|]|]; congruence.
Qed.

(** A negative limit drops that many of the ranked matches. *)
Lemma searchCategory_negative {T} `{BaseLocation T} (t : LocationType)
    (xs : list T) (query : jsstring) (opts : RequiredSearchOptions)
    (out : list (SearchResult T)) :
  searchCategory t xs query opts = Ok out ->
  limit opts < 0 -> includesType (types opts) t = true ->
  Z.of_nat (length out)
  = Z.max (Z.of_nat (length (hits xs query opts)) + limit opts) 0.
Proof.
  intros E Hl Ht. destruct (searchCategory_inv _ _ _ _ _ E) as [[Hn _]|[_ ->]];
    [congruence|].
  rewrite slice0_negative by exact Hl. now rewrite sort_length.
Qed.

Lemma search_blank (query : jsstring) (options : SearchOptions) :
  isBlank query = true -> search query options = Ok emptyResult.
Proof. intros Hb. unfold search. now rewrite Hb. Qed.

Lemma search_none (query : jsstring) (options : SearchOptions) :
  let opts := spread defaultSearchOptions options in
  (forall e, In e (searched opts) ->
     searchInItem e (trim query) opts = Ok None) ->
  search query options = Ok emptyResult.
Proof.
  intros opts Hn. unfold search. fold opts.
  destruct (isBlank query); [reflexivity|].
  unfold searched in Hn.
  rewrite (searchCategory_none ADivision (fun _ => eq_refl) (fun _ => eq_refl)
             (fun _ => eq_refl)), 
          (searchCategory_none ADistrict (fun _ => eq_refl) (fun _ => eq_refl)
             (fun _ => eq_refl)),
          (searchCategory_none AUpazila (fun _ => eq_refl) (fun _ => eq_refl)
             (fun _ => eq_refl)); [reflexivity | | |];
    intros e He; apply Hn; rewrite !in_app_iff; auto.
Qed.

Lemma search_zero_limit (query : jsstring) (options : SearchOptions) :
  let opts := spread defaultSearchOptions options in
  anyField opts = true -> limit opts = 0 ->
  search query options = Ok emptyResult.
Proof.
  intros opts Hf Hl. destruct (search_total query options Hf) as [r E].
  rewrite E. f_equal.
  destruct (search_inv _ _ _ E) as [[_ ->] | [_ [E1 [E2 E3]]]]; [reflexivity|].
  fold opts in E1, E2, E3. apply searchCategory_inv in E1, E2, E3.
  rewrite Hl in E1, E2, E3.
  rewrite slice0_zero in E1. rewrite slice0_zero in E2.
  rewrite slice0_zero in E3.
  destruct r as [a b c]. unfold emptyResult. simpl in *.
  f_equal; [destruct E1 as [[_ ->]|[_ ->]] | destruct E2 as [[_ ->]|[_ ->]]
            | destruct E3 as [[_ ->]|[_ ->]]]; reflexivity.
Qed.

Lemma quickSearch_total (query : jsstring) (options : SearchOptions) :
  anyField (spread defaultSearchOptions options) = true ->
  exists a, quickSearch query options = Ok a.
Proof.
  intros Hf. unfold quickSearch.
  destruct (search_total query (withLimit options 1) Hf) as [r ->]. simpl.
  destruct (Z.of_nat (length (flatten r)) =? 0); [eexists; reflexivity|].
  destruct (sort byScoreDesc (flatten r)); eexists; reflexivity.
Qed.

Lemma bind_total {A B} (c : result A) (f : A -> B) :
  (exists a, c = Ok a) -> exists b, (x <- c ;; Ok (f x)) = Ok b.
Proof. intros [a ->]. simpl. eexists; reflexivity. Qed.

End Totality.

Lemma search_empty_catalog {host : Runtime}
    (query : jsstring) (options : SearchOptions) :
  @search host emptyCatalog query options = Ok emptyResult.
Proof.
  unfold search, searchCategory. destruct (isBlank query); [reflexivity|].
  simpl.
  destruct (includesType _ division), (includesType _ district),
    (includesType _ upazila); simpl; rewrite ?slice0_nil; reflexivity.
Qed.

Lemma autocomplete_empty_catalog {host : Runtime}
    (query : jsstring) (options : SearchOptions) :
  @autocomplete host emptyCatalog query options = [].
Proof.
  unfold autocomplete, scanCategory. destruct (isBlank query); [reflexivity|].
  simpl.
  destruct (includesType _ division), (includesType _ district),
    (includesType _ upazila); simpl; now rewrite slice0_nil.
Qed.

(** C1, as the code has it.  With at least one field flag set no search
    operation throws: [search], [quickSearch], [fuzzySearch] and the category
    presets return normally for every query and every other option;
    [searchEnglish] and [searchBengali] set a flag themselves and
    [autocomplete] does not score, so they return normally for all options.
    The result is empty for a blank query, for an empty catalog, when no
    entity reaches the threshold and when [limit] is 0. *)
Theorem search_total_with_field {host : Runtime} {data : Catalog}
    (query : jsstring) (options : SearchOptions) :
  let opts := spread defaultSearchOptions options in
  (anyField opts = true ->
     (exists r, search query options = Ok r) /\
     (exists a, quickSearch query options = Ok a) /\
     (exists r, fuzzySearch query options = Ok r) /\
     (exists l, searchDivisions query options = Ok l) /\
     (exists l, searchDistricts query options = Ok l) /\
     (exists l, searchUpazilas query options = Ok l))
  /\ (exists r, searchEnglish query options = Ok r)
  /\ (exists r, searchBengali query options = Ok r)
  /\ (isBlank query = true ->
        search query options = Ok emptyResult /\
        autocomplete query options = [])
  /\ (@search host emptyCatalog query options = Ok emptyResult /\
      @autocomplete host emptyCatalog query options = [])
  /\ ((forall e, In e (searched opts) ->
         searchInItem e (trim query) opts = Ok None) ->
      search query options = Ok emptyResult)
  /\ (anyField opts = true -> limit opts = 0 ->
      search query options = Ok emptyResult)
  /\ (limit opts < 0 -> isBlank query = false ->
      forall r, search query options = Ok r ->
        (includesType (types opts) division = true ->
         Z.of_nat (length (divisions r))
         = Z.max (Z.of_nat (length (hits divisionsData (trim query) opts))
                  + limit opts) 0) /\
        (includesType (types opts) district = true ->
         Z.of_nat (length (districts r))
         = Z.max (Z.of_nat (length (hits districtsData (trim query) opts))
                  + limit opts) 0) /\
        (includesType (types opts) upazila = true ->
         Z.of_nat (length (upazilas r))
         = Z.max (Z.of_nat (length (hits upazilasData (trim query) opts))
                  + limit opts) 0)).
Proof.
  intros opts. split; [|repeat apply conj].
  - intros Hf. repeat apply conj.
    + now apply search_total.
    + now apply quickSearch_total.
    + unfold fuzzySearch. now apply search_total.
    + unfold searchDivisions. apply bind_total. now apply search_total.
    + unfold searchDistricts. apply bind_total. now apply search_total.
    + unfold searchUpazilas. apply bind_total. now apply search_total.
  - unfold searchEnglish. now apply search_total.
  - unfold searchBengali. now apply search_total.
  - intros Hb. split; [now apply search_blank|].
    unfold autocomplete. now rewrite Hb.
  - apply search_empty_catalog.
  - apply autocomplete_empty_catalog.
  - apply search_none.
  - apply search_zero_limit.
  - intros Hl Hb r E.
    destruct (search_inv _ _ _ E) as [[Hb' _] | [_ [E1 [E2 E3]]]];
      [congruence|].
    fold opts in E1, E2, E3.
    repeat apply conj; intros Ht;
      eapply searchCategory_negative; eassumption.
Qed.

(** ** The functions on the sample catalog *)

(** The second rule on the README's example: "Dha" in "Dhaka" scores 0.92. *)
Lemma calculateSimilarity_containment_witness :
  Contains (@folded basicLatin false (js "Dhaka"))
           (@folded basicLatin false (js "Dha"))
  /\ (@calculateSimilarity basicLatin (js "Dha") (js "Dhaka") false == 0.92)%Q.
Proof.
  assert (C : Contains (@folded basicLatin false (js "Dhaka"))
                       (@folded basicLatin false (js "Dha")))
    by (exists [], (js "ka"); reflexivity).
  split; [exact C|].
  destruct (@calculateSimilarity_containment basicLatin (js "Dha") (js "Dhaka")
              false) as [H _].
  destruct (H C ltac:(discriminate)) as [E _].
  rewrite E. reflexivity.
Defined.

(** A search of the sample catalog is ranked. *)
Lemma search_ranked_witness :
  exists r,
    @search basicLatin sampleCatalog (js "a") noOptions = Ok r
    /\ @Ranked basicLatin _ _ (districts r) (@districtsData sampleCatalog)
               (trim (js "a")) (spread defaultSearchOptions noOptions).
Proof.
  destruct (@search basicLatin sampleCatalog (js "a") noOptions) as [r|e] eqn:E.
  - exists r. split; [reflexivity|].
    apply (@search_ranked basicLatin sampleCatalog (js "a") noOptions r E).
  - vm_compute in E. discriminate E.
Defined.

(** With [limit = 1] each category returns one result: three in all. *)
Lemma search_limit_witness :
  exists r,
    @search basicLatin sampleCatalog (js "Dhaka") (withLimit noOptions 1) = Ok r
    /\ (Z.of_nat (length (divisions r)) <= 1
        /\ Z.of_nat (length (districts r)) <= 1
        /\ Z.of_nat (length (upazilas r)) <= 1)
    /\ (length (divisions r) + length (districts r) + length (upazilas r)
        = 3)%nat.
Proof.
  destruct (@search basicLatin sampleCatalog (js "Dhaka") (withLimit noOptions 1))
    as [r|e] eqn:E.
  - exists r. split; [reflexivity|]. split.
    + apply (@search_limit basicLatin sampleCatalog (js "Dhaka")
               (withLimit noOptions 1) r E).
      simpl. lia.
    + vm_compute in E. injection E as <-. reflexivity.
  - vm_compute in E. discriminate E.
Defined.

(** C5 as stated fails for a negative limit: [slice(0, -1)] keeps all but the
    last match, here one district, which is more than [-1]. *)
Lemma search_limit_negative :
  exists r,
    @search basicLatin sampleCatalog (js "a") (withLimit noOptions (-1)) = Ok r
    /\ ~ (Z.of_nat (length (districts r))
          <= limit (spread defaultSearchOptions (withLimit noOptions (-1)))).
Proof.
  eexists. split; [vm_compute; reflexivity|].
  vm_compute. intros H. apply H. reflexivity.
Qed.

(** Restricted to districts, the other two sequences are empty. *)
Lemma search_types_witness :
  exists r,
    @search basicLatin sampleCatalog (js "Dhaka")
      (withTypes noOptions [district]) = Ok r
    /\ divisions r = [] /\ upazilas r = [] /\ districts r <> [].
Proof.
  destruct (@search basicLatin sampleCatalog (js "Dhaka")
              (withTypes noOptions [district])) as [r|e] eqn:E.
  - exists r. split; [reflexivity|].
    destruct (@search_types basicLatin sampleCatalog (js "Dhaka")
                (withTypes noOptions [district]) r E) as [Hd [_ Hu]].
    split; [apply Hd; reflexivity|]. split; [apply Hu; reflexivity|].
    vm_compute in E. injection E as <-. discriminate.
  - vm_compute in E. discriminate E.
Defined.

(** [quickSearch] for "savar" answers the upazila Savar, the only exact
    match. *)
Lemma quickSearch_best_witness :
  @quickSearch basicLatin sampleCatalog (js "savar") noOptions
  = Ok (Some (AUpazila savarUpazila))
  /\ exists r,
       @Matches basicLatin (AUpazila savarUpazila) (trim (js "savar"))
                (spread defaultSearchOptions (withLimit noOptions 1)) r
       /\ forall e' r',
            In e' (@searched sampleCatalog
                     (spread defaultSearchOptions (withLimit noOptions 1))) ->
            @Matches basicLatin e' (trim (js "savar"))
                     (spread defaultSearchOptions (withLimit noOptions 1)) r' ->
            (score r' <= score r)%Q.
Proof.
  assert (E : @quickSearch basicLatin sampleCatalog (js "savar") noOptions
              = Ok (Some (AUpazila savarUpazila)))
    by (vm_compute; reflexivity).
  split; [exact E|].
  destruct (@quickSearch_best basicLatin sampleCatalog (js "savar") noOptions
              _ E) as [_ [_ H]].
  exact H.
Defined.

(** The default call for "dha" suggests the division Dhaka: its folded name
    starts with the query. *)
Lemma autocomplete_folding_witness :
  caseSensitive (spread defaultSearchOptions noOptions) = false
  /\ isBlank (js "dha") = false
  /\ In (suggest division ADivision dhakaDivision)
        (@autocomplete basicLatin sampleCatalog (js "dha") noOptions).
Proof.
  split; [reflexivity|]. split; [reflexivity|].
  destruct (@autocomplete_folding basicLatin sampleCatalog (js "dha") noOptions
              eq_refl eq_refl) as [_ H].
  apply H.
  - vm_compute. discriminate.
  - left. reflexivity.
  - left. split; [reflexivity|]. exists (js "ka"). reflexivity.
Defined.

(** C9 as stated fails where the secondary name has cased letters: the
    folded secondary name "dhaka" starts with the folded query "dh", and the
    entity is not suggested, since its stored secondary name "Dhaka" does
    not. *)
Lemma autocomplete_secondary_not_folded :
  includeBengali (spread defaultSearchOptions noOptions) = true
  /\ In daccaDivision (@divisionsData latinCatalog)
  /\ startsWith (@toLowerCase basicLatin (bnName daccaDivision))
                (@toLowerCase basicLatin (trim (js "Dh"))) = true
  /\ @autocomplete basicLatin latinCatalog (js "Dh") noOptions = [].
Proof. repeat split; vm_compute; auto. Qed.

(** With a field flag set the operations return. *)
Lemma search_total_with_field_witness :
  exists r, @search basicLatin sampleCatalog (js "dhaka") noOptions = Ok r.
Proof.
  destruct (@search_total_with_field basicLatin sampleCatalog (js "dhaka")
              noOptions) as [H _].
  exact (proj1 (H eq_refl)).
Defined.

(** C1 as stated fails twice.  With the three field flags off
    [searchInItem] reduces an empty array and [search] throws; and a negative
    limit does not empty the result. *)
Lemma search_not_total :
  @search basicLatin sampleCatalog (js "dhaka") noFields = Throw TypeError
  /\ @quickSearch basicLatin sampleCatalog (js "dhaka") noFields
     = Throw TypeError
  /\ exists r,
       @search basicLatin sampleCatalog (js "a") (withLimit noOptions (-1))
       = Ok r /\ districts r <> [].
Proof.
  split; [vm_compute; reflexivity|]. split; [vm_compute; reflexivity|].
  eexists. split; [vm_compute; reflexivity|]. discriminate.
Qed.

(** C8 on the code.  [fuzzySearch] is [search] with the threshold 0.4, which
    is above the default 0.3: the query "sabcdt" scores 1/3 against "Sylhet",
    so [search] returns the division Sylhet and [fuzzySearch] does not. *)
Theorem fuzzySearch_stricter :
  (forall (host : Runtime) (data : Catalog) query options,
     fuzzySearch query options = search query (withThreshold options 0.4))
  /\ (threshold defaultSearchOptions < 0.4)%Q
  /\ (exists r,
        @search basicLatin sampleCatalog (js "sabcdt") noOptions = Ok r
        /\ map item (divisions r) = [sylhetDivision]
        /\ map score (divisions r) = [(2 # 6)%Q])
  /\ @fuzzySearch basicLatin sampleCatalog (js "sabcdt") noOptions
     = Ok emptyResult.
Proof.
  split; [reflexivity|]. split; [reflexivity|]. split.
  - eexists. split; [vm_compute; reflexivity|]. split; reflexivity.
  - vm_compute. reflexivity.
Qed.

(** * Further properties of the search utilities *)

(** ** [levenshteinDistance] computes the edit distance *)

Lemma Edit_nonneg (a b : jsstring) (n : Z) : Edit a b n -> 0 <= n.
Proof. induction 1; lia. Qed.

Lemma Edit_len (a b : jsstring) (n : Z) :
  Edit a b n -> len b - len a <= n /\ len a - len b <= n.
Proof.
  unfold len. induction 1; simpl length; lia.
Qed.

Lemma Edit_refl (a : jsstring) : Edit a a 0.
Proof. induction a; constructor; assumption. Qed.

Lemma Edit_inserts (b : jsstring) : Edit [] b (len b).
Proof.
  unfold len. induction b as [|d b IH]; [constructor|].
  replace (Z.of_nat (length (d :: b))) with (Z.of_nat (length b) + 1)
    by (simpl length; lia).
  now constructor.
Qed.

Lemma Edit_deletes (a : jsstring) : Edit a [] (len a).
Proof.
  unfold len. induction a as [|c a IH]; [constructor|].
  replace (Z.of_nat (length (c :: a))) with (Z.of_nat (length a) + 1)
    by (simpl length; lia).
  now constructor.
Qed.

Lemma Edit_sym (a b : jsstring) (n : Z) : Edit a b n -> Edit b a n.
Proof. induction 1; constructor; assumption. Qed.

Lemma Edit_app (a b a' b' : jsstring) (n m : Z) :
  Edit a b n -> Edit a' b' m -> Edit (a ++ a') (b ++ b') (n + m).
Proof.
  intros H H'. induction H; simpl.
  - exact H'.
  - now constructor.
  - replace (n + 1 + m) with (n + m + 1) by lia. now constructor.
  - replace (n + 1 + m) with (n + m + 1) by lia. now constructor.
  - replace (n + 1 + m) with (n + m + 1) by lia. now constructor.
Qed.

(** A script read from right to left is a script. *)
Lemma Edit_rev (a b : jsstring) (n : Z) :
  Edit a b n -> Edit (rev a) (rev b) n.
Proof.
  induction 1; simpl.
  - constructor.
  - replace n with (n + 0) by lia. apply Edit_app; [assumption|].
    repeat constructor.
  - apply Edit_app; [assumption|]. apply (Edit_subst c d [] [] 0). constructor.
  - rewrite <- (app_nil_r (rev b)). apply Edit_app; [assumption|].
    apply (Edit_delete c [] [] 0). constructor.
  - rewrite <- (app_nil_r (rev a)). apply Edit_app; [assumption|].
    apply (Edit_insert d [] [] 0). constructor.
Qed.

(** Dropping the first character of the target costs at most one more. *)
Lemma Edit_drop_r (a b : jsstring) (d : char) (n : Z) :
  Edit a (d :: b) n -> exists m, m <= n + 1 /\ Edit a b m.
Proof.
  intros H. remember (d :: b) as b' eqn:E. revert b E.
  induction H as [|c a b0 n H IH|c d0 a b0 n H IH|c a b0 n H IH|d0 a b0 n H IH];
    intros b E; try discriminate.
  - injection E as -> ->. exists (n + 1). split; [lia | now constructor].
  - injection E as -> ->. exists (n + 1). split; [lia | now constructor].
  - destruct (IH b E) as [m [Hm He]].
    exists (m + 1). split; [lia | now constructor].
  - injection E as -> ->. exists n. split; [lia | assumption].
Qed.

Lemma Edit_drop_l (a b : jsstring) (c : char) (n : Z) :
  Edit (c :: a) b n -> exists m, m <= n + 1 /\ Edit a b m.
Proof.
  intros H. apply Edit_sym, Edit_drop_r in H. destruct H as [m [Hm He]].
  exists m. split; [exact Hm | now apply Edit_sym].
Qed.

Lemma Distance_unique (a b : jsstring) (d d' : Z) :
  Distance a b d -> Distance a b d' -> d = d'.
Proof.
  intros [H1 M1] [H2 M2]. specialize (M1 _ H2). specialize (M2 _ H1). lia.
Qed.

Lemma Distance_rev (a b : jsstring) (d : Z) :
  Distance (rev a) (rev b) d -> Distance a b d.
Proof.
  intros [H M]. split.
  - apply Edit_rev in H. now rewrite !rev_involutive in H.
  - intros n Hn. apply M. now apply Edit_rev.
Qed.

Lemma Distance_inserts (b : jsstring) : Distance [] b (len b).
Proof.
  split; [apply Edit_inserts|].
  intros n H. apply Edit_len in H. unfold len in *. simpl in H. lia.
Qed.

Lemma Distance_deletes (a : jsstring) : Distance a [] (len a).
Proof.
  split; [apply Edit_deletes|].
  intros n H. apply Edit_len in H. unfold len in *. simpl in H. lia.
Qed.

(** One cell of the matrix from its three neighbours. *)
Lemma Distance_cell (a b : jsstring) (c c2 : char) (diag up left : Z) :
  Distance a b diag ->
  Distance a (c2 :: b) up ->
  Distance (c :: a) b left ->
  Distance (c :: a) (c2 :: b)
    (if N.eqb c c2 then diag
     else Z.min (diag + 1) (Z.min (up + 1) (left + 1))).
Proof.
  intros [Hd Md] [Hu Mu] [Hl Ml].
  destruct (N.eqb_spec c c2) as [->|Hne].
  - split; [now constructor|].
    intros n H. inversion H; subst.
    + now apply Md.
    + match goal with E : Edit a b _ |- _ => specialize (Md _ E) end. lia.
    + match goal with E : Edit a (c2 :: b) _ |- _ =>
        specialize (Mu _ E) end.
      destruct (Edit_drop_r _ _ _ _ Hu) as [m [Hm He]].
      specialize (Md _ He). lia.
    + match goal with E : Edit (c2 :: a) b _ |- _ =>
        specialize (Ml _ E) end.
      destruct (Edit_drop_l _ _ _ _ Hl) as [m [Hm He]].
      specialize (Md _ He). lia.
  - split.
    + destruct (Z.min_spec (up + 1) (left + 1)) as [[_ E1]|[_ E1]];
        destruct (Z.min_spec (diag + 1) (Z.min (up + 1) (left + 1)))
          as [[_ E2]|[_ E2]]; rewrite E2; try rewrite E1;
        now constructor.
    + intros n H. inversion H; subst.
      * contradiction.
      * match goal with E : Edit a b _ |- _ => specialize (Md _ E) end. lia.
      * match goal with E : Edit a (c2 :: b) _ |- _ =>
          specialize (Mu _ E) end. lia.
      * match goal with E : Edit (c :: a) b _ |- _ =>
          specialize (Ml _ E) end. lia.
Qed.

Lemma fillRow_opt (c : char) (p : jsstring) :
  forall s above pre diag left,
    Distance (rev p) (rev pre) diag ->
    Distance (rev (p ++ [c])) (rev pre) left ->
    OptTail p pre s above ->
    OptTail (p ++ [c]) pre s (fillRow c s above diag left).
Proof.
  induction s as [|c2 s IH]; intros above pre diag left Hd Hl HR;
    inversion HR; subst; simpl.
  - constructor.
  - match goal with
    | Hu : Distance (rev p) (rev (pre ++ [c2])) ?v,
      Ht : OptTail p (pre ++ [c2]) s ?row |- _ =>
        assert (Hc : Distance (rev (p ++ [c])) (rev (pre ++ [c2]))
                       (if N.eqb c c2 then diag
                        else Z.min (diag + 1) (Z.min (v + 1) (left + 1))));
        [ rewrite !rev_app_distr in *; simpl in *;
          now apply Distance_cell
        | constructor; [exact Hc|]; apply IH; assumption ]
    end.
Qed.

Lemma firstRow_opt_tail (pre s : jsstring) :
  OptTail [] pre s (map Z.of_nat (seq (S (length pre)) (length s))).
Proof.
  revert pre. induction s as [|c s IH]; intros pre; simpl.
  - constructor.
  - constructor.
    + simpl. pose proof (Distance_inserts (rev (pre ++ [c]))) as H.
      unfold len in H. rewrite length_rev, length_app in H. simpl in H.
      replace (Z.of_nat (length pre + 1)) with (Z.pos (Pos.of_succ_nat (length pre)))
        in H by lia.
      exact H.
    + specialize (IH (pre ++ [c])). rewrite length_app in IH. simpl in IH.
      replace (length pre + 1)%nat with (S (length pre)) in IH by lia.
      exact IH.
Qed.

Lemma firstRow_opt (s : jsstring) : OptRow [] s (firstRow s).
Proof.
  unfold OptRow, firstRow. simpl. eexists. split; [reflexivity|].
  apply (firstRow_opt_tail [] s).
Qed.

Lemma nextRow_opt (p s : jsstring) (c : char) (row : list Z) :
  OptRow p s row -> OptRow (p ++ [c]) s (nextRow s c row).
Proof.
  intros [tail [-> HR]]. unfold OptRow, nextRow.
  eexists. split.
  - unfold len. rewrite length_app. simpl.
    replace (Z.of_nat (length p + 1)) with (Z.of_nat (length p) + 1) by lia.
    reflexivity.
  - apply fillRow_opt; [| |exact HR].
    + simpl. pose proof (Distance_deletes (rev p)) as H.
      unfold len in *. now rewrite length_rev in H.
    + simpl. pose proof (Distance_deletes (rev (p ++ [c]))) as H.
      unfold len in *. rewrite length_rev, length_app in H. simpl in H.
      replace (Z.of_nat (length p + 1)) with (Z.of_nat (length p) + 1) in H
        by lia.
      exact H.
Qed.

Lemma rows_opt (s : jsstring) :
  forall s1 p row, OptRow p s row ->
    OptRow (p ++ s1) s (fold_left (fun prevRow c => nextRow s c prevRow) s1 row).
Proof.
  induction s1 as [|c s1 IH]; intros p row HR; simpl.
  - now rewrite app_nil_r.
  - replace (p ++ c :: s1) with ((p ++ [c]) ++ s1) by now rewrite <- app_assoc.
    apply IH. now apply nextRow_opt.
Qed.

Lemma OptTail_last (p : jsstring) :
  forall s pre row d, OptTail p pre s row -> s <> [] ->
    Distance (rev p) (rev (pre ++ s)) (nth (length s - 1) row d).
Proof.
  induction s as [|c s IH]; intros pre row d HR Hs; [congruence|].
  inversion HR; subst. simpl length. rewrite Nat.sub_succ, Nat.sub_0_r.
  destruct s as [|c' s].
  - simpl. assumption.
  - match goal with Ht : OptTail p _ (c' :: s) ?r |- _ =>
      specialize (IH (pre ++ [c]) r d Ht ltac:(discriminate)) end.
    simpl length in IH. rewrite Nat.sub_succ, Nat.sub_0_r in IH.
    rewrite <- app_assoc in IH. simpl in IH. simpl nth. exact IH.
Qed.

Lemma levenshteinDistance_Distance (a b : jsstring) :
  Distance a b (levenshteinDistance a b).
Proof.
  unfold levenshteinDistance.
  destruct (Z.eqb_spec (len a) 0) as [Ea|Ea].
  { apply len_zero in Ea. subst. apply Distance_inserts. }
  destruct (Z.eqb_spec (len b) 0) as [Eb|Eb].
  { apply len_zero in Eb. subst. apply Distance_deletes. }
  destruct (rows_opt b a [] _ (firstRow_opt b)) as [tail [E HR]].
  simpl in E. rewrite E.
  assert (Hb : b <> []) by (intros ->; apply Eb; reflexivity).
  destruct b as [|c b]; [congruence|].
  pose proof (OptTail_last a (c :: b) [] tail 0 HR Hb) as H.
  simpl length in *. rewrite Nat.sub_succ, Nat.sub_0_r in H.
  apply Distance_rev. simpl app in H. simpl nth. exact H.
Qed.

(** X1.  [levenshteinDistance a b] is the edit distance of [a] and [b]: some
    script of that many insertions, deletions and substitutions turns [a]
    into [b], and no script does it with fewer. *)
Theorem levenshteinDistance_optimal (a b : jsstring) :
  Edit a b (levenshteinDistance a b)
  /\ forall n, Edit a b n -> levenshteinDistance a b <= n.
Proof. exact (levenshteinDistance_Distance a b). Qed.

(** Scripts compose. *)
Lemma Edit_trans (a b : jsstring) (n : Z) :
  Edit a b n ->
  forall c m, Edit b c m -> exists k, k <= n + m /\ Edit a c k.
Proof.
  induction 1 as [|x a b n H IH|x y a b n H IH|x a b n H IH|y a b n H IH];
    intros c m H2.
  - exists m. split; [lia | exact H2].
  - remember (x :: b) as bb eqn:E. revert E.
    induction H2 as [|z b2 c2 m2 H2 _|z w b2 c2 m2 H2 _|z b2 c2 m2 H2 _
                     |w b2 c2 m2 H2 IH2]; intros E; try discriminate.
    + injection E as -> ->. destruct (IH _ _ H2) as [k [Hk He]].
      exists k. split; [lia | now constructor].
    + injection E as -> ->. destruct (IH _ _ H2) as [k [Hk He]].
      exists (k + 1). split; [lia | now constructor].
    + injection E as -> ->. destruct (IH _ _ H2) as [k [Hk He]].
      exists (k + 1). split; [lia | now constructor].
    + destruct (IH2 E) as [k [Hk He]].
      exists (k + 1). split; [lia | now constructor].
  - remember (y :: b) as bb eqn:E. revert E.
    induction H2 as [|z b2 c2 m2 H2 _|z w b2 c2 m2 H2 _|z b2 c2 m2 H2 _
                     |w b2 c2 m2 H2 IH2]; intros E; try discriminate.
    + injection E as -> ->. destruct (IH _ _ H2) as [k [Hk He]].
      exists (k + 1). split; [lia | now constructor].
    + injection E as -> ->. destruct (IH _ _ H2) as [k [Hk He]].
      exists (k + 1). split; [lia | now constructor].
    + injection E as -> ->. destruct (IH _ _ H2) as [k [Hk He]].
      exists (k + 1). split; [lia | now constructor].
    + destruct (IH2 E) as [k [Hk He]].
      exists (k + 1). split; [lia | now constructor].
  - destruct (IH _ _ H2) as [k [Hk He]].
    exists (k + 1). split; [lia | now constructor].
  - remember (y :: b) as bb eqn:E. revert E.
    induction H2 as [|z b2 c2 m2 H2 _|z w b2 c2 m2 H2 _|z b2 c2 m2 H2 _
                     |w b2 c2 m2 H2 IH2]; intros E; try discriminate.
    + injection E as -> ->. destruct (IH _ _ H2) as [k [Hk He]].
      exists (k + 1). split; [lia | now constructor].
    + injection E as -> ->. destruct (IH _ _ H2) as [k [Hk He]].
      exists (k + 1). split; [lia | now constructor].
    + injection E as -> ->. destruct (IH _ _ H2) as [k [Hk He]].
      exists k. split; [lia | exact He].
    + destruct (IH2 E) as [k [Hk He]].
      exists (k + 1). split; [lia | now constructor].
Qed.

(** Substituting along the shorter string and inserting or deleting the
    rest. *)
Lemma Edit_upper (a : jsstring) :
  forall b, exists n, n <= Z.max (len a) (len b) /\ Edit a b n.
Proof.
  unfold len. induction a as [|x a IH]; intros b.
  - exists (Z.of_nat (length b)). split; [simpl; lia | apply Edit_inserts].
  - destruct b as [|y b].
    + exists (Z.of_nat (length (x :: a))). split; [lia | apply Edit_deletes].
    + destruct (IH b) as [n [Hn He]].
      exists (n + 1). split; [simpl length; lia | now constructor].
Qed.

(** X2.  The distance is zero exactly between equal strings. *)
Theorem levenshteinDistance_identity (a b : jsstring) :
  levenshteinDistance a b = 0 <-> a = b.
Proof.
  split; [apply levenshteinDistance_zero|].
  intros <-. destruct (levenshteinDistance_Distance a a) as [H M].
  specialize (M 0 (Edit_refl a)). apply Edit_nonneg in H. lia.
Qed.

(** X3.  The distance is symmetric. *)
Theorem levenshteinDistance_symmetric (a b : jsstring) :
  levenshteinDistance a b = levenshteinDistance b a.
Proof.
  destruct (levenshteinDistance_Distance a b) as [H1 M1].
  destruct (levenshteinDistance_Distance b a) as [H2 M2].
  specialize (M1 _ (Edit_sym _ _ _ H2)).
  specialize (M2 _ (Edit_sym _ _ _ H1)). lia.
Qed.

(** X4.  The distance satisfies the triangle inequality. *)
Theorem levenshteinDistance_triangle (a b c : jsstring) :
  levenshteinDistance a c <= levenshteinDistance a b + levenshteinDistance b c.
Proof.
  destruct (levenshteinDistance_Distance a b) as [H1 _].
  destruct (levenshteinDistance_Distance b c) as [H2 _].
  destruct (levenshteinDistance_Distance a c) as [_ M].
  destruct (Edit_trans _ _ _ H1 _ _ H2) as [k [Hk He]].
  specialize (M _ He). lia.
Qed.

(** X5.  The distance lies between the difference of the lengths and the
    larger length. *)
Theorem levenshteinDistance_bounds (a b : jsstring) :
  Z.abs (len a - len b) <= levenshteinDistance a b
  /\ levenshteinDistance a b <= Z.max (len a) (len b).
Proof.
  destruct (levenshteinDistance_Distance a b) as [H M]. split.
  - apply Edit_len in H. lia.
  - destruct (Edit_upper a b) as [n [Hn He]]. specialize (M _ He). lia.
Qed.

(** ** The score of the fourth rule *)

Section EditScore.

Context {host : Runtime}.

Local Open Scope Q_scope.

(** X6.  When the folded candidate neither equals nor contains the folded
    query, the score is [1 - distance / maxLen] as it stands: the distance
    never exceeds the larger length, so the clamp [Math.max(0, ...)] never
    changes the value. *)
Theorem calculateSimilarity_edit (query target : jsstring) (cs : bool) :
  let q := folded cs query in
  let t := folded cs target in
  q <> t -> includes t q = false ->
  calculateSimilarity query target cs
  == 1 - inject_Z (levenshteinDistance q t) / inject_Z (Z.max (len q) (len t))
  /\ 0 <= 1 - inject_Z (levenshteinDistance q t)
              / inject_Z (Z.max (len q) (len t)).
Proof.
  intros q t Hne Hi.
  assert (Hm : (0 < Z.max (len q) (len t))%Z).
  { pose proof (len_nonneg q). pose proof (len_nonneg t).
    destruct (Z.eq_dec (Z.max (len q) (len t)) 0) as [E|E]; [|lia].
    exfalso. apply Hne.
    assert (len q = 0%Z) by lia. assert (len t = 0%Z) by lia.
    rewrite (len_zero q), (len_zero t); auto. }
  assert (Hr : inject_Z (levenshteinDistance q t)
               / inject_Z (Z.max (len q) (len t)) <= 1).
  { apply Qle_shift_div_r.
    - change 0 with (inject_Z 0). rewrite <- Zlt_Qlt. exact Hm.
    - rewrite Qmult_1_l. rewrite <- Zle_Qle.
      destruct (Edit_upper q t) as [n [Hn He]].
      pose proof (proj2 (levenshteinDistance_Distance q t) _ He). lia. }
  split; [|lra].
  destruct (calculateSimilarity_rules query target cs)
    as [[E _] | [[_ [I _]] | [_ [_ ->]]]].
  - contradiction.
  - unfold q, t in Hi. congruence.
  - apply Q.max_r. exact (proj1 (Qle_minus_iff _ _) Hr).
Qed.

End EditScore.

(** ** The best field of an item *)

Section BestField.

Context {host : Runtime} {T : Type} `{BaseLocation T}.

Local Open Scope Q_scope.

Lemma Qle_bool_false (a b : Q) : Qle_bool a b = false -> b < a.
Proof.
  intros E. apply Qnot_le_lt. intros Hle. apply Qle_bool_iff in Hle. congruence.
Qed.

(** What [searchInItem] returns, in terms of the scores of the enabled
    fields. *)
Lemma searchInItem_spec (it : T) (query : jsstring)
    (opts : RequiredSearchOptions) (res : option (SearchResult T)) :
  searchInItem it query opts = Ok res ->
  match res with
  | Some r =>
      item r = it
      /\ fieldEnabled opts (matchedField r) = true
      /\ score r = fieldScore it query opts (matchedField r)
      /\ threshold opts <= score r
      /\ (forall f, fieldEnabled opts f = true ->
            fieldScore it query opts f <= score r)
      /\ (forall f, fieldEnabled opts f = true ->
            (fieldRank f < fieldRank (matchedField r))%Z ->
            fieldScore it query opts f < score r)
  | None =>
      forall f, fieldEnabled opts f = true ->
        fieldScore it query opts f < threshold opts
  end.
Proof.
  unfold searchInItem, fieldScores, fieldScore, fieldEnabled.
  set (sn := calculateSimilarity query (name it) (caseSensitive opts)).
  set (sb := calculateSimilarity query (bnName it) (caseSensitive opts)).
  set (ss := calculateSimilarity query (slug it) (caseSensitive opts)).
  destruct (includeEnglish opts), (includeBengali opts), (includeSlug opts);
    cbn [app reduce fold_left bind]; unfold better; cbn [fs_score fs_field];
    try discriminate;
    repeat match goal with
    | |- context [Qle_bool ?a ?b] =>
        is_var a; is_var b;
        let E := fresh "E" in
        destruct (Qle_bool a b) eqn:E;
        [apply Qle_bool_iff in E | apply Qle_bool_false in E];
        cbn [fs_score fs_field]
    end;
    repeat match goal with
    | |- context [Qle_bool ?a ?b] =>
        let E := fresh "E" in
        destruct (Qle_bool a b) eqn:E;
        [apply Qle_bool_iff in E | apply Qle_bool_false in E];
        cbn [fs_score fs_field]
    end;
    cbn [fs_score fs_field] in *;
    intros [= <-]; cbn [item score matchedField];
    repeat split; try reflexivity; try assumption;
    intros [] Hf; cbn [fieldValue fieldRank]; fold sn sb ss;
    first [discriminate Hf | intros; lia | intros; lra].
Qed.

(** X7.  When [searchInItem] returns a result, its score is the largest of
    the scores of the enabled fields and reaches the threshold, and its
    field is the first of name, bnName, slug to have that score; it returns
    null exactly when every enabled field scores below the threshold. *)
Theorem searchInItem_best (it : T) (query : jsstring)
    (opts : RequiredSearchOptions) (res : option (SearchResult T)) :
  searchInItem it query opts = Ok res ->
  match res with
  | Some r =>
      item r = it
      /\ fieldEnabled opts (matchedField r) = true
      /\ score r = fieldScore it query opts (matchedField r)
      /\ threshold opts <= score r
      /\ (forall f, fieldEnabled opts f = true ->
            fieldScore it query opts f <= score r)
      /\ (forall f, fieldEnabled opts f = true ->
            (fieldRank f < fieldRank (matchedField r))%Z ->
            fieldScore it query opts f < score r)
  | None =>
      forall f, fieldEnabled opts f = true ->
        fieldScore it query opts f < threshold opts
  end.
Proof. apply searchInItem_spec. Qed.

End BestField.

(** ** The results of a search *)

Section SortPermutation.

Context {A : Type} (compareFn : A -> A -> Q).

Lemma insert_Permutation (x : A) (l : list A) :
  Permutation (insert compareFn x l) (x :: l).
Proof.
  induction l as [|y l IH]; simpl; [reflexivity|].
  destruct (Qle_bool 0 (compareFn y x)); [reflexivity|].
  rewrite IH. apply perm_swap.
Qed.

Lemma sort_Permutation (l : list A) : Permutation (sort compareFn l) l.
Proof.
  induction l as [|x l IH]; simpl; [reflexivity|].
  rewrite insert_Permutation. now constructor.
Qed.

End SortPermutation.

Section Results.

Context {host : Runtime} {data : Catalog}.

Local Open Scope Q_scope.

(** The score of [calculateSimilarity] is in the unit interval. *)
Lemma calculateSimilarity_unit (query target : jsstring) (cs : bool) :
  0 <= calculateSimilarity query target cs
  /\ calculateSimilarity query target cs <= 1.
Proof.
  destruct (calculateSimilarity_rules query target cs)
    as [[E ->] | [[Hne [I ->]] | [Hne [I ->]]]].
  - split; lra.
  - pose proof (includes_proper_len _ _ I Hne) as Hlt.
    pose proof (ratio_bounds _ _ (len_nonneg _) Hlt) as [H0 H1]. split; lra.
  - pose proof (edit_similarity_bounds _ _ Hne) as [H0 H1]. cbv zeta in H0, H1.
    split; lra.
Qed.

Lemma slice_sort_Sound {T} `{BaseLocation T} (xs : list T) (query : jsstring)
    (opts : RequiredSearchOptions) (k : Z) :
  Sound (slice0 (sort byScoreDesc (hits xs query opts)) k) xs query opts.
Proof.
  destruct (slice0_firstn (sort byScoreDesc (hits xs query opts)) k) as [n ->].
  pose proof (firstn_Prefix n (sort byScoreDesc (hits xs query opts))) as P.
  split; [|split].
  - intros x Hx. apply (Prefix_In _ _ _ P) in Hx.
    apply (proj1 (sort_In byScoreDesc _ _)) in Hx.
    apply hits_In in Hx. destruct Hx as [y [Hy E]].
    pose proof (searchInItem_item _ _ _ _ E) as Ei. rewrite Ei.
    split; [exact Hy|]. split; [exact E|].
    destruct (searchInItem_spec y query opts _ E) as [_ [_ [Es [Ht _]]]].
    split; [exact Ht|]. rewrite Es. apply calculateSimilarity_unit.
  - intros Hn. destruct P as [rest P].
    assert (Hs : NoDup (map item (sort byScoreDesc (hits xs query opts)))).
    { eapply Permutation_NoDup.
      - apply Permutation_map, Permutation_sym, sort_Permutation.
      - rewrite hits_items. now apply NoDup_filter. }
    rewrite P, map_app in Hs. now apply NoDup_app_remove_r in Hs.
  - rewrite length_firstn, sort_length.
    apply Nat.le_trans with (length (hits xs query opts)); [apply Nat.le_min_r|].
    rewrite <- (length_map item), hits_items. apply filter_length_le.
Qed.

Lemma searchCategory_Sound {T} `{BaseLocation T} (t : LocationType)
    (xs : list T) (query : jsstring) (opts : RequiredSearchOptions)
    (out : list (SearchResult T)) :
  searchCategory t xs query opts = Ok out -> Sound out xs query opts.
Proof.
  intros E. destruct (searchCategory_inv _ _ _ _ _ E) as [[_ ->]|[_ ->]].
  - split; [intros x []|]. split; [intros _; constructor | simpl; lia].
  - apply slice_sort_Sound.
Qed.

(** X8.  Every result of [search] is the result [searchInItem] computes for
    an entity of the category's table, with a score between the threshold
    and 1; a table without repeated entities yields no entity twice, and no
    category returns more results than its table has entities. *)
Theorem search_sound (query : jsstring) (options : SearchOptions)
    (r : LocationSearchResult) :
  search query options = Ok r ->
  let opts := spread defaultSearchOptions options in
  Sound (divisions r) divisionsData (trim query) opts
  /\ Sound (districts r) districtsData (trim query) opts
  /\ Sound (upazilas r) upazilasData (trim query) opts.
Proof.
  intros E opts.
  destruct (search_inv _ _ _ E) as [[_ ->] | [_ [E1 [E2 E3]]]].
  - simpl. repeat apply conj; try (intros x []); try (intros _; constructor);
      simpl; lia.
  - fold opts in E1, E2, E3.
    split; [|split]; eapply searchCategory_Sound; eassumption.
Qed.

End Results.

(** ** Surrounding white space *)

Lemma trimStart_head (s : jsstring) :
  trimStart s = [] \/
  exists c rest, trimStart s = c :: rest /\ isWhiteSpace c = false.
Proof.
  induction s as [|c s IH]; simpl; [now left|].
  destruct (isWhiteSpace c) eqn:E; [exact IH|].
  right. exists c, s. auto.
Qed.

Lemma trimStart_idem (s : jsstring) : trimStart (trimStart s) = trimStart s.
Proof.
  destruct (trimStart_head s) as [->|[c [rest [-> E]]]]; [reflexivity|].
  simpl. now rewrite E.
Qed.

Lemma trimStart_snoc (l : jsstring) (c : char) :
  isWhiteSpace c = false -> trimStart (l ++ [c]) = trimStart l ++ [c].
Proof.
  intros E. induction l as [|w l IH]; simpl.
  - now rewrite E.
  - destruct (isWhiteSpace w); [exact IH | reflexivity].
Qed.

Lemma trimEnd_cons (c : char) (s : jsstring) :
  isWhiteSpace c = false -> trimEnd (c :: s) = c :: trimEnd s.
Proof.
  intros E. unfold trimEnd. simpl.
  rewrite (trimStart_snoc _ _ E), rev_app_distr. reflexivity.
Qed.

Lemma trimEnd_idem (s : jsstring) : trimEnd (trimEnd s) = trimEnd s.
Proof.
  unfold trimEnd. now rewrite rev_involutive, trimStart_idem.
Qed.

Lemma trim_idem (s : jsstring) : trim (trim s) = trim s.
Proof.
  unfold trim.
  destruct (trimStart_head s) as [->|[c [rest [-> E]]]]; [reflexivity|].
  rewrite (trimEnd_cons _ _ E). simpl. rewrite E.
  rewrite (trimEnd_cons _ _ E). now rewrite trimEnd_idem.
Qed.

Lemma isBlank_trim (s : jsstring) : isBlank s = (len (trim s) =? 0).
Proof.
  unfold isBlank. destruct s as [|c s]; [reflexivity|].
  unfold len at 1. simpl.  reflexivity.
Qed.

(** The white space around a query does not matter. *)
Lemma search_by_trim {host : Runtime} {data : Catalog}
    (q q' : jsstring) (options : SearchOptions) :
  trim q = trim q' ->
  search q options = search q' options
  /\ quickSearch q options = quickSearch q' options
  /\ autocomplete q options = autocomplete q' options.
Proof.
  intros E.
  assert (Hs : forall o, search q o = search q' o).
  { intros o. unfold search. now rewrite !isBlank_trim, E. }
  split; [apply Hs|]. split.
  - unfold quickSearch. now rewrite Hs.
  - unfold autocomplete. now rewrite !isBlank_trim, E.
Qed.

(** X9.  [search], [quickSearch] and [autocomplete] read the query through
    [trim] only: two queries with the same trimmed text give the same
    outcome, and so do a query and its trimmed text. *)
Theorem search_ignores_outer_space {host : Runtime} {data : Catalog}
    (q : jsstring) (options : SearchOptions) :
  (forall q', trim q' = trim q ->
     search q' options = search q options
     /\ quickSearch q' options = quickSearch q options
     /\ autocomplete q' options = autocomplete q options)
  /\ search (trim q) options = search q options
  /\ quickSearch (trim q) options = quickSearch q options
  /\ autocomplete (trim q) options = autocomplete q options.
Proof.
  split.
  - intros q' E. now apply search_by_trim.
  - apply search_by_trim, trim_idem.
Qed.

(** ** Exact matches *)

Section ExactMatch.

Context {host : Runtime} {data : Catalog}.

Local Open Scope Q_scope.

Lemma calculateSimilarity_exact (query target : jsstring) (cs : bool) :
  folded cs target = folded cs query ->
  calculateSimilarity query target cs = 1.
Proof.
  intros E. unfold calculateSimilarity. fold (folded cs query) (folded cs target).
  rewrite E. now rewrite (proj2 (eqb_str_spec _ _) eq_refl).
Qed.

Lemma slice0_cons {A} (x : A) (l : list A) (k : Z) :
  (1 <= k)%Z -> exists rest, slice0 (x :: l) k = x :: rest.
Proof.
  intros Hk. unfold slice0. destruct (Z.ltb_spec k 0); [lia|].
  destruct (Z.to_nat (Z.min k (Z.of_nat (length (x :: l))))) as [|n] eqn:E.
  - simpl length in E. lia.
  - simpl. eexists; reflexivity.
Qed.

Lemma searchCategory_exact_first {T} `{BaseLocation T} (t : LocationType)
    (xs : list T) (query : jsstring) (opts : RequiredSearchOptions)
    (out : list (SearchResult T)) (f : Field) (x : T) :
  searchCategory t xs query opts = Ok out ->
  includesType (types opts) t = true ->
  threshold opts <= 1 -> (1 <= limit opts)%Z ->
  fieldEnabled opts f = true -> In x xs ->
  folded (caseSensitive opts) (fieldValue f x)
  = folded (caseSensitive opts) query ->
  exists top rest, out = top :: rest /\ score top == 1.
Proof.
  intros E Ht Hth Hl Hf Hx Heq.
  assert (S1 : fieldScore x query opts f = 1)
    by (unfold fieldScore; now apply calculateSimilarity_exact).
  destruct (searchCategory_items _ _ _ _ _ E Ht x Hx) as [res Ex].
  pose proof (searchInItem_spec x query opts res Ex) as Sp.
  destruct res as [r0|].
  2:{ specialize (Sp f Hf). rewrite S1 in Sp. lra. }
  destruct Sp as [_ [_ [_ [_ [Hmax _]]]]]. specialize (Hmax f Hf).
  rewrite S1 in Hmax.
  assert (Hin : In r0 (hits xs query opts)) by (apply hits_In; eauto).
  destruct (searchCategory_inv _ _ _ _ _ E) as [[Hn _]|[_ ->]]; [congruence|].
  destruct (sort byScoreDesc (hits xs query opts)) as [|h rest] eqn:Es.
  { apply (sort_In byScoreDesc) in Hin. rewrite Es in Hin. destruct Hin. }
  destruct (sort_head_max byScoreDesc score byScoreDesc_key _ _ _ Es)
    as [Hh Hm].
  destruct (slice0_cons h rest (limit opts) Hl) as [rest' ->].
  exists h, rest'. split; [reflexivity|].
  specialize (Hm r0 Hin).
  apply hits_In in Hh. destruct Hh as [y [_ Ey]].
  destruct (searchInItem_spec y query opts _ Ey) as [_ [_ [Es' _]]].
  pose proof (calculateSimilarity_unit query (fieldValue (matchedField h) y)
                (caseSensitive opts)) as [_ Hu].
  unfold fieldScore in Es'. rewrite <- Es' in Hu.
  apply Qle_antisym; lra.
Qed.

(** X10.  An exact match comes first.  When an entity of a searched category
    has an enabled field that equals the trimmed query (after the optional
    folding), the threshold is at most 1 and the limit at least 1, the
    sequence of that category starts with a result of score 1. *)
Theorem search_exact_first (query : jsstring) (options : SearchOptions)
    (r : LocationSearchResult) (f : Field) :
  search query options = Ok r ->
  let opts := spread defaultSearchOptions options in
  let same {T} `{BaseLocation T} (x : T) :=
    folded (caseSensitive opts) (fieldValue f x)
    = folded (caseSensitive opts) (trim query) in
  isBlank query = false ->
  threshold opts <= 1 -> (1 <= limit opts)%Z ->
  fieldEnabled opts f = true ->
  (includesType (types opts) division = true ->
   forall d, In d divisionsData -> same d ->
     exists top rest, divisions r = top :: rest /\ score top == 1)
  /\ (includesType (types opts) district = true ->
      forall d, In d districtsData -> same d ->
        exists top rest, districts r = top :: rest /\ score top == 1)
  /\ (includesType (types opts) upazila = true ->
      forall u, In u upazilasData -> same u ->
        exists top rest, upazilas r = top :: rest /\ score top == 1).
Proof.
  intros E opts same Hb Hth Hl Hf.
  destruct (search_inv _ _ _ E) as [[Hb' _] | [_ [E1 [E2 E3]]]]; [congruence|].
  fold opts in E1, E2, E3.
  split; [|split]; intros Ht x Hx Hs;
    eapply searchCategory_exact_first; eassumption.
Qed.

End ExactMatch.

(** ** Thresholds and limits *)

Section SortFilter.

Context {A : Type} (compareFn : A -> A -> Q) (key : A -> Q).
Hypothesis compare_key :
  forall y x, Qle_bool 0 (compareFn y x) = Qle_bool (key y) (key x).

Lemma insert_filter (p : A -> bool) (x : A) (l : list A) :
  StronglySorted (keyDescending key) l ->
  filter p (insert compareFn x l)
  = if p x then insert compareFn x (filter p l) else filter p l.
Proof.
  induction 1 as [|y l Hs IH Hy].
  - simpl. destruct (p x); reflexivity.
  - cbn [insert]. rewrite compare_key.
    destruct (Qle_bool (key y) (key x)) eqn:E.
    + change (filter p (x :: y :: l))
        with (if p x then x :: filter p (y :: l) else filter p (y :: l)).
      destruct (p x); [|reflexivity].
      symmetry. apply insert_stop. apply Forall_forall. intros z Hz.
      apply filter_In in Hz. destruct Hz as [Hz _].
      rewrite compare_key. apply Qle_bool_iff. apply Qle_bool_iff in E.
      destruct Hz as [<-|Hz]; [exact E|].
      rewrite Forall_forall in Hy. specialize (Hy z Hz).
      unfold keyDescending in Hy. eapply Qle_trans; eassumption.
    + cbn [filter]. rewrite IH.
      destruct (p x), (p y); cbn [insert]; try reflexivity.
      now rewrite compare_key, E.
Qed.

Lemma sort_filter (p : A -> bool) (l : list A) :
  filter p (sort compareFn l) = sort compareFn (filter p l).
Proof.
  induction l as [|x l IH]; [reflexivity|].
  cbn [sort filter].
  rewrite insert_filter by apply (sort_sorted compareFn key compare_key).
  rewrite IH. destruct (p x); reflexivity.
Qed.

(** In a descending array the elements whose key reaches a bound come
    first. *)
Lemma filter_bound_Prefix (c : Q) (l : list A) :
  StronglySorted (keyDescending key) l ->
  Prefix (filter (fun a => Qle_bool c (key a)) l) l.
Proof.
  induction 1 as [|x l Hs IH Hx]; [now exists []|].
  cbn [filter]. destruct (Qle_bool c (key x)) eqn:E.
  - destruct IH as [rest IH]. exists rest. simpl. now rewrite <- IH.
  - replace (filter (fun a => Qle_bool c (key a)) l) with (@nil A);
      [now exists (x :: l)|].
    symmetry. clear IH Hs. induction Hx as [|y l Hy _ IHl]; [reflexivity|].
    cbn [filter].
    destruct (Qle_bool c (key y)) eqn:Ey; [|exact IHl].
    apply Qle_bool_iff in Ey. unfold keyDescending in Hy.
    assert (Hc : Qle_bool c (key x) = true)
      by (apply Qle_bool_iff; eapply Qle_trans; eassumption).
    congruence.
Qed.

End SortFilter.

Lemma firstn_le_Prefix {A} (j j' : nat) (l : list A) :
  (j <= j')%nat -> Prefix (firstn j l) (firstn j' l).
Proof.
  intros Hj. replace j with (Nat.min j j') by lia.
  rewrite <- firstn_firstn. apply firstn_Prefix.
Qed.

Lemma slice0_Prefix {A} (l1 l2 : list A) (k : Z) :
  Prefix l1 l2 -> Prefix (slice0 l1 k) (slice0 l2 k).
Proof.
  intros [rest ->]. unfold slice0. rewrite length_app.
  set (n1 := length l1). set (n2 := length rest).
  set (j := Z.to_nat (if k <? 0 then Z.max (Z.of_nat n1 + k) 0
                      else Z.min k (Z.of_nat n1))).
  set (j' := Z.to_nat (if k <? 0 then Z.max (Z.of_nat (n1 + n2) + k) 0
                       else Z.min k (Z.of_nat (n1 + n2)))).
  assert (Hj : (j <= n1)%nat)
    by (subst j; destruct (Z.ltb_spec k 0); lia).
  assert (Hjj : (j <= j')%nat)
    by (subst j j'; destruct (Z.ltb_spec k 0); lia).
  replace (firstn j l1) with (firstn j (l1 ++ rest)).
  - now apply firstn_le_Prefix.
  - rewrite firstn_app. replace (j - length l1)%nat with 0%nat by (fold n1; lia).
    simpl. now rewrite app_nil_r.
Qed.

(** More or fewer elements of one array. *)
Lemma slice0_limit_Prefix {A} (l : list A) (k1 k2 : Z) :
  k1 <= k2 -> (0 <= k1 \/ k2 < 0) ->
  Prefix (slice0 l k1) (slice0 l k2).
Proof.
  intros Hk Hs. unfold slice0. apply firstn_le_Prefix.
  destruct (Z.ltb_spec k1 0), (Z.ltb_spec k2 0); lia.
Qed.

Section Thresholds.

Context {host : Runtime} {data : Catalog}.

Local Open Scope Q_scope.

Section Category.

Context {T : Type} `{BaseLocation T}.

Lemma searchInItem_threshold (x : T) (query : jsstring)
    (a b : RequiredSearchOptions) :
  sameButThreshold a b -> threshold a <= threshold b ->
  searchInItem x query b
  = match searchInItem x query a with
    | Ok (Some r) =>
        if Qle_bool (threshold b) (score r) then Ok (Some r) else Ok None
    | Ok None => Ok None
    | Throw e => Throw e
    end.
Proof.
  intros [E1 [E2 [E3 [_ [E5 _]]]]] Hle.
  unfold searchInItem, fieldScores. rewrite E1, E2, E3, E5.
  destruct (reduce better _) as [best|]; simpl; [|reflexivity].
  destruct (Qle_bool (threshold a) (fs_score best)) eqn:Ea; simpl.
  - destruct (Qle_bool (threshold b) (fs_score best)); reflexivity.
  - destruct (Qle_bool (threshold b) (fs_score best)) eqn:Eb; [|reflexivity].
    apply Qle_bool_iff in Eb.
    assert (Ha : Qle_bool (threshold a) (fs_score best) = true)
      by (apply Qle_bool_iff; eapply Qle_trans; eassumption).
    congruence.
Qed.

Lemma collect_threshold (xs : list T) (query : jsstring)
    (a b : RequiredSearchOptions) (found : list (SearchResult T)) :
  sameButThreshold a b -> threshold a <= threshold b ->
  collect xs query a = Ok found ->
  collect xs query b
  = Ok (filter (fun r => Qle_bool (threshold b) (score r)) found).
Proof.
  intros Hs Hle. revert found.
  induction xs as [|x xs IH]; simpl; intros found E.
  - now injection E as <-.
  - rewrite (searchInItem_threshold x query a b Hs Hle).
    destruct (searchInItem x query a) as [res|]; simpl in E; [|discriminate].
    destruct (collect xs query a) as [found'|]; simpl in E; [|discriminate].
    injection E as <-. rewrite (IH found' eq_refl).
    destruct res as [r|]; simpl; [|reflexivity].
    destruct (Qle_bool (threshold b) (score r)); reflexivity.
Qed.

Lemma searchCategory_threshold (t : LocationType) (xs : list T)
    (query : jsstring) (a b : RequiredSearchOptions)
    (out : list (SearchResult T)) :
  sameButThreshold a b -> threshold a <= threshold b ->
  searchCategory t xs query a = Ok out ->
  exists out', searchCategory t xs query b = Ok out' /\ Prefix out' out.
Proof.
  intros Hs Hle. pose proof Hs as [_ [_ [_ [El [_ Et]]]]].
  unfold searchCategory. rewrite <- Et, <- El.
  destruct (includesType (types a) t).
  - destruct (collect xs query a) as [found|] eqn:Ec; simpl; [|discriminate].
    intros [= <-].
    rewrite (collect_threshold xs query a b found Hs Hle Ec). simpl.
    eexists. split; [reflexivity|].
    apply slice0_Prefix.
    rewrite <- (sort_filter byScoreDesc score byScoreDesc_key).
    apply filter_bound_Prefix.
    apply (sort_sorted byScoreDesc score byScoreDesc_key).
  - intros [= <-]. exists []. split; [reflexivity | now exists []].
Qed.

End Category.

(** [searchInItem] reads the field flags, the case flag and the threshold
    only. *)
Lemma searchInItem_ext {T} `{BaseLocation T} (x : T) (query : jsstring)
    (a b : RequiredSearchOptions) :
  includeEnglish a = includeEnglish b ->
  includeBengali a = includeBengali b ->
  includeSlug a = includeSlug b ->
  caseSensitive a = caseSensitive b ->
  threshold a = threshold b ->
  searchInItem x query a = searchInItem x query b.
Proof.
  intros E1 E2 E3 E4 E5. unfold searchInItem, fieldScores.
  now rewrite E1, E2, E3, E4, E5.
Qed.

Lemma collect_ext {T} `{BaseLocation T} (xs : list T) (query : jsstring)
    (a b : RequiredSearchOptions) :
  includeEnglish a = includeEnglish b ->
  includeBengali a = includeBengali b ->
  includeSlug a = includeSlug b ->
  caseSensitive a = caseSensitive b ->
  threshold a = threshold b ->
  collect xs query a = collect xs query b.
Proof.
  intros E1 E2 E3 E4 E5. induction xs as [|x xs IH]; simpl; [reflexivity|].
  now rewrite IH, (searchInItem_ext x query a b E1 E2 E3 E4 E5).
Qed.

Lemma search_threshold (query : jsstring) (o1 o2 : SearchOptions)
    (r1 : LocationSearchResult) :
  sameButThreshold (spread defaultSearchOptions o1)
                   (spread defaultSearchOptions o2) ->
  threshold (spread defaultSearchOptions o1)
  <= threshold (spread defaultSearchOptions o2) ->
  search query o1 = Ok r1 ->
  exists r2, search query o2 = Ok r2 /\ PrefixResult r2 r1.
Proof.
  intros Hs Hle E.
  destruct (search_inv _ _ _ E) as [[Hb ->] | [Hb [E1 [E2 E3]]]].
  - exists emptyResult. unfold search. rewrite Hb.
    split; [reflexivity|]. repeat split; now exists [].
  - destruct (searchCategory_threshold _ _ _ _ _ _ Hs Hle E1) as [d [Ed Pd]].
    destruct (searchCategory_threshold _ _ _ _ _ _ Hs Hle E2) as [t [Et Pt]].
    destruct (searchCategory_threshold _ _ _ _ _ _ Hs Hle E3) as [u [Eu Pu]].
    unfold search. rewrite Hb, Ed, Et, Eu. simpl.
    eexists. split; [reflexivity|]. repeat split; assumption.
Qed.

(** X11.  Raising the threshold only cuts results from the end: for
    [t1 <= t2], each sequence of the search with threshold [t2] is an
    initial segment of the sequence of the search with threshold [t1], other
    options being equal. *)
Theorem search_threshold_monotone (query : jsstring) (options : SearchOptions)
    (t1 t2 : Q) (r1 : LocationSearchResult) :
  t1 <= t2 ->
  search query (withThreshold options t1) = Ok r1 ->
  exists r2,
    search query (withThreshold options t2) = Ok r2 /\ PrefixResult r2 r1.
Proof.
  intros Hle E.
  apply (search_threshold query (withThreshold options t1)
           (withThreshold options t2) r1); [|exact Hle|exact E].
  repeat split.
Qed.

(** X12.  [fuzzySearch] returns nothing that [search] does not: when the
    threshold in force is at most 0.4, as the default 0.3 is, each sequence
    of [fuzzySearch] is an initial segment of the sequence of [search]. *)
Theorem fuzzySearch_within_search (query : jsstring) (options : SearchOptions)
    (r : LocationSearchResult) :
  threshold (spread defaultSearchOptions options) <= 0.4 ->
  search query options = Ok r ->
  exists r', fuzzySearch query options = Ok r' /\ PrefixResult r' r.
Proof.
  intros Hle E. unfold fuzzySearch.
  apply (search_threshold query options (withThreshold options 0.4) r);
    [|exact Hle|exact E].
  repeat split.
Qed.

(** X13.  A larger limit only adds results at the end: for limits
    [k1 <= k2] that are both non-negative or both negative, each sequence of
    the search with limit [k1] is an initial segment of the sequence of the
    search with limit [k2]. *)
Theorem search_limit_monotone (query : jsstring) (options : SearchOptions)
    (k1 k2 : Z) (r1 : LocationSearchResult) :
  (k1 <= k2)%Z -> (0 <= k1 \/ k2 < 0)%Z ->
  search query (withLimit options k1) = Ok r1 ->
  exists r2, search query (withLimit options k2) = Ok r2 /\ PrefixResult r1 r2.
Proof.
  intros Hk Hs E.
  destruct (search_inv _ _ _ E) as [[Hb ->] | [Hb [E1 [E2 E3]]]].
  - exists emptyResult. unfold search. rewrite Hb.
    split; [reflexivity|]. repeat split; now exists [].
  - assert (C : forall {T} `{BaseLocation T} t (xs : list T) out,
        searchCategory t xs (trim query)
          (spread defaultSearchOptions (withLimit options k1)) = Ok out ->
        exists out',
          searchCategory t xs (trim query)
            (spread defaultSearchOptions (withLimit options k2)) = Ok out'
          /\ Prefix out out').
    { intros T HT t xs out. unfold searchCategory. cbn [types limit spread].
      destruct (includesType _ t).
      - rewrite (collect_ext xs (trim query)
                   (spread defaultSearchOptions (withLimit options k2))
                   (spread defaultSearchOptions (withLimit options k1)))
          by reflexivity.
        destruct (collect xs (trim query) _) as [found|]; simpl;
          [|discriminate].
        intros [= <-]. eexists. split; [reflexivity|].
        now apply slice0_limit_Prefix.
      - intros [= <-]. exists []. split; [reflexivity | now exists []]. }
    destruct (C _ _ _ _ _ E1) as [d [Ed Pd]].
    destruct (C _ _ _ _ _ E2) as [t [Et Pt]].
    destruct (C _ _ _ _ _ E3) as [u [Eu Pu]].
    unfold search. rewrite Hb, Ed, Et, Eu. simpl.
    eexists. split; [reflexivity|]. repeat split; assumption.
Qed.

End Thresholds.

(** ** The presets *)

Section Presets.

Context {host : Runtime} {data : Catalog}.

Lemma searchCategory_types {T} `{BaseLocation T} (t : LocationType)
    (xs : list T) (query : jsstring) (options : SearchOptions)
    (ts : list LocationType) (out : list (SearchResult T)) :
  searchCategory t xs query (spread defaultSearchOptions options) = Ok out ->
  includesType (types (spread defaultSearchOptions options)) t = true ->
  includesType ts t = true ->
  searchCategory t xs query
    (spread defaultSearchOptions (withTypes options ts)) = Ok out.
Proof.
  unfold searchCategory. intros E Ht Hs. rewrite Ht in E.
  cbn [types spread withTypes opt_types orDefault]. rewrite Hs.
  rewrite (collect_ext xs query
             (spread defaultSearchOptions (withTypes options ts))
             (spread defaultSearchOptions options)) by reflexivity.
  exact E.
Qed.

Lemma searchCategory_skipped {T} `{BaseLocation T} (t : LocationType)
    (xs : list T) (query : jsstring) (opts : RequiredSearchOptions) :
  includesType (types opts) t = false ->
  searchCategory t xs query opts = Ok [].
Proof. unfold searchCategory. now intros ->. Qed.

(** X14.  A category preset returns what [search] returns for its category:
    when [search] returns and the category is among its types,
    [searchDivisions], [searchDistricts] and [searchUpazilas] return that
    category's sequence of the result. *)
Theorem category_presets_agree (query : jsstring) (options : SearchOptions)
    (r : LocationSearchResult) :
  search query options = Ok r ->
  let opts := spread defaultSearchOptions options in
  (includesType (types opts) division = true ->
   searchDivisions query options = Ok (divisions r))
  /\ (includesType (types opts) district = true ->
      searchDistricts query options = Ok (districts r))
  /\ (includesType (types opts) upazila = true ->
      searchUpazilas query options = Ok (upazilas r)).
Proof.
  intros E opts.
  destruct (search_inv _ _ _ E) as [[Hb ->] | [Hb [E1 [E2 E3]]]].
  - unfold searchDivisions, searchDistricts, searchUpazilas, search.
    rewrite Hb. simpl. auto.
  - fold opts in E1, E2, E3.
    unfold searchDivisions, searchDistricts, searchUpazilas, search.
    rewrite Hb. split; [|split]; intros Ht.
    + rewrite (searchCategory_types _ _ _ _ [division] _ E1 Ht eq_refl).
      rewrite !searchCategory_skipped by reflexivity. reflexivity.
    + rewrite (searchCategory_types _ _ _ _ [district] _ E2 Ht eq_refl).
      rewrite !searchCategory_skipped by reflexivity. reflexivity.
    + rewrite (searchCategory_types _ _ _ _ [upazila] _ E3 Ht eq_refl).
      rewrite !searchCategory_skipped by reflexivity. reflexivity.
Qed.

Lemma search_MatchedOn (query : jsstring) (options : SearchOptions)
    (r : LocationSearchResult) (f : Field) :
  search query options = Ok r ->
  (forall g, fieldEnabled (spread defaultSearchOptions options) g = true ->
     g = f) ->
  MatchedOn f r.
Proof.
  intros E Hf.
  assert (C : forall {T} `{BaseLocation T} t (xs : list T) out,
              searchCategory t xs (trim query)
                (spread defaultSearchOptions options) = Ok out ->
              forall x, In x out -> matchedField x = f).
  { intros T HT t xs out Ec x Hx.
    destruct (searchCategory_Sound _ _ _ _ _ Ec) as [S _].
    destruct (S x Hx) as [_ [Ex _]].
    apply Hf. apply (searchInItem_spec _ _ _ _ Ex). }
  destruct (search_inv _ _ _ E) as [[Hb ->] | [Hb [E1 [E2 E3]]]].
  - repeat split; intros x [].
  - split; [|split]; eapply C; eassumption.
Qed.

(** X15.  Every result of [searchEnglish] matched on the English name and
    every result of [searchBengali] on the Bengali name, whatever flags the
    caller passed. *)
Theorem language_presets_field (query : jsstring) (options : SearchOptions) :
  (forall r, searchEnglish query options = Ok r -> MatchedOn FName r)
  /\ (forall r, searchBengali query options = Ok r -> MatchedOn FBnName r).
Proof.
  split; intros r E; apply (search_MatchedOn _ _ _ _ E);
    intros [] Hg; try reflexivity; discriminate Hg.
Qed.

End Presets.

(** ** Ties in [quickSearch] *)

Section QuickSearchTies.

Context {host : Runtime} {data : Catalog}.

Local Open Scope Q_scope.

Lemma searchCategory_one {T} `{BaseLocation T} (t : LocationType)
    (xs : list T) (query : jsstring) (opts : RequiredSearchOptions)
    (out : list (SearchResult T)) :
  searchCategory t xs query opts = Ok out -> limit opts = 1%Z ->
  out = [] \/ exists x, out = [x].
Proof.
  intros E Hl.
  assert (Hlen : (Z.of_nat (length out) <= 1)%Z).
  { destruct (searchCategory_inv _ _ _ _ _ E) as [[_ ->]|[_ ->]];
      [simpl; lia|]. rewrite Hl. now apply slice0_length. }
  destruct out as [|x [|y out]]; [now left | right; now exists x|].
  simpl length in Hlen. lia.
Qed.

(** X16.  [quickSearch] breaks ties by category: the entity it answers
    scores strictly higher than every matching entity of an earlier
    category, divisions coming before districts and districts before
    upazilas. *)
Theorem quickSearch_category_order (query : jsstring)
    (options : SearchOptions) (e : AnyLocation) :
  quickSearch query options = Ok (Some e) ->
  let opts := spread defaultSearchOptions (withLimit options 1) in
  exists r, Matches e (trim query) opts r /\
    forall e' r', In e' (searched opts) ->
      Matches e' (trim query) opts r' ->
      (categoryRank e' < categoryRank e)%Z ->
      score r' < score r.
Proof.
  intros E opts. unfold quickSearch in E.
  destruct (search query (withLimit options 1)) as [r1|] eqn:Es;
    [|discriminate].
  simpl in E.
  destruct (search_inv _ _ _ Es) as [[_ ->] | [_ [E1 [E2 E3]]]];
    [discriminate E|].
  fold opts in E1, E2, E3.
  destruct (searchCategory_any ADivision (fun _ => eq_refl) (fun _ => eq_refl)
              (fun _ => eq_refl) _ _ _ _ _ E1 eq_refl) as [A1 [A2 _]].
  destruct (searchCategory_any ADistrict (fun _ => eq_refl) (fun _ => eq_refl)
              (fun _ => eq_refl) _ _ _ _ _ E2 eq_refl) as [B1 [B2 _]].
  destruct (searchCategory_any AUpazila (fun _ => eq_refl) (fun _ => eq_refl)
              (fun _ => eq_refl) _ _ _ _ _ E3 eq_refl) as [C1 [C2 _]].
  unfold Matches, searched.
  unfold flatten in E.
  destruct (searchCategory_one _ _ _ _ _ E1 eq_refl) as [Hd|[d Hd]];
  destruct (searchCategory_one _ _ _ _ _ E2 eq_refl) as [Hi|[i Hi]];
  destruct (searchCategory_one _ _ _ _ _ E3 eq_refl) as [Hu|[u Hu]];
    rewrite Hd, Hi, Hu in *; cbn [map app length sort insert] in *;
    rewrite ?byScoreDesc_key in E; cbn [widen score] in E.
  all: repeat match type of E with
    | context [Qle_bool ?a ?b] =>
        let Q := fresh "Q" in
        destruct (Qle_bool a b) eqn:Q;
        [apply Qle_bool_iff in Q | apply Qle_bool_false in Q];
        cbn [insert] in E; rewrite ?byScoreDesc_key in E;
        cbn [widen score] in E
    end.
  all: cbn in E; try discriminate E; injection E as <-.
  all: match goal with
    | |- exists r, searchInItem (?inj (item ?x)) _ _ = _ /\ _ =>
        exists (widen inj x); split;
        [ first [ exact (proj2 (A1 (widen inj x) (or_introl eq_refl)))
                | exact (proj2 (B1 (widen inj x) (or_introl eq_refl)))
                | exact (proj2 (C1 (widen inj x) (or_introl eq_refl))) ] |]
    end.
  all: intros e' r' He' Hm Hr; rewrite !in_app_iff in He';
    destruct He' as [He'|[He'|He']];
    match type of He' with
    | In _ (if ?c then _ else _) => destruct c eqn:Hc; [|destruct He']
    end;
    pose proof He' as He2;
    apply in_map_iff in He2; destruct He2 as [x [<- Hx]];
    cbn [categoryRank widen item] in Hr; try lia.
  all: first
    [ destruct (A2 _ r' He' Hm) as [h [Hh Hle]]
    | destruct (B2 _ r' He' Hm) as [h [Hh Hle]]
    | destruct (C2 _ r' He' Hm) as [h [Hh Hle]] ].
  all: simpl in Hh; try (destruct Hh as [<-|[]]); try (destruct Hh);
    cbn [widen score] in *; try lra.
Qed.

End QuickSearchTies.

(** ** The suggestions of [autocomplete] *)

Lemma candidates_FromCatalog {data : Catalog} (opts : RequiredSearchOptions)
    (e : Suggestion) :
  In e (candidates opts) ->
  FromCatalog e /\ includesType (types opts) (sg_type e) = true.
Proof.
  unfold candidates. rewrite !in_app_iff.
  intros [He|[He|He]];
    match type of He with
    | In _ (if ?c then _ else _) => destruct c eqn:Hc; [|destruct He]
    end;
    apply in_map_iff in He; destruct He as [x [<- Hx]];
    (split; [repeat split; assumption | exact Hc]).
Qed.

(** X17.  Every suggestion of [autocomplete] stands for an entity of the
    catalog, of a type among [types], under its own names; and a
    non-negative [limit] caps the suggestions of all categories together. *)
Theorem autocomplete_sound {host : Runtime} {data : Catalog}
    (query : jsstring) (options : SearchOptions) :
  let opts := spread defaultSearchOptions options in
  (forall e, In e (autocomplete query options) ->
     FromCatalog e /\ includesType (types opts) (sg_type e) = true)
  /\ (0 <= limit opts ->
      Z.of_nat (length (autocomplete query options)) <= limit opts)
  /\ (length (autocomplete query options)
      <= length divisionsData + length districtsData
         + length upazilasData)%nat.
Proof.
  intros opts.
  destruct (isBlank query) eqn:Hb.
  { unfold autocomplete. rewrite Hb. simpl.
    split; [intros e []|]. split; [auto | lia]. }
  pose proof (autocomplete_eq query options Hb) as E. cbv zeta in E.
  fold opts in E. rewrite E.
  set (q := prefixQuery opts query) in *.
  assert (D : forall x, onSecondaryOnly opts q x = true ->
                onPrimary opts q x = false).
  { intros x Hx. unfold onSecondaryOnly in Hx.
    apply andb_true_iff in Hx. destruct Hx as [Hx _].
    now apply negb_true_iff in Hx. }
  split; [|split].
  - intros e He. apply slice0_In in He. apply candidates_FromCatalog.
    apply in_app_or in He. rewrite !filter_In in He. tauto.
  - intros Hl. now apply slice0_length.
  - destruct (slice0_firstn
                (filter (onPrimary opts q) (candidates opts)
                 ++ filter (onSecondaryOnly opts q) (candidates opts))
                (limit opts)) as [n ->].
    rewrite length_firstn.
    pose proof (filter_disjoint_length (onPrimary opts q)
                  (onSecondaryOnly opts q) (candidates opts) D) as Hlen.
    assert (Hc : (length (candidates opts)
                  <= length divisionsData + length districtsData
                     + length upazilasData)%nat).
    { unfold candidates. rewrite !length_app.
      destruct (includesType _ division), (includesType _ district),
        (includesType _ upazila); rewrite ?length_map; simpl; lia. }
    lia.
Qed.

(** * The data access functions *)

(** ** Lookups *)

Section Find.

Context {A : Type}.

(** In a table whose keys are pairwise different, the lookup of a row's key
    finds that row. *)
Lemma find_key (key : A -> Z) (l : list A) (x : A) :
  NoDup (map key l) -> In x l ->
  find (fun y => key y =? key x) l = Some x.
Proof.
  induction l as [|y l IH]; intros Hn Hx; [destruct Hx|].
  simpl in Hn. inversion Hn as [|? ? Hy Hn']; subst. simpl.
  destruct Hx as [->|Hx]; [now rewrite Z.eqb_refl|].
  destruct (Z.eqb_spec (key y) (key x)) as [E|_]; [|now apply IH].
  exfalso. apply Hy. rewrite E. now apply in_map.
Qed.

Lemma find_text (key : A -> jsstring) (l : list A) (x : A) :
  NoDup (map key l) -> In x l ->
  find (fun y => eqb_str (key y) (key x)) l = Some x.
Proof.
  induction l as [|y l IH]; intros Hn Hx; [destruct Hx|].
  simpl in Hn. inversion Hn as [|? ? Hy Hn']; subst. simpl.
  destruct Hx as [->|Hx]; [now rewrite (proj2 (eqb_str_spec _ _) eq_refl)|].
  destruct (eqb_str (key y) (key x)) eqn:E; [|now apply IH].
  apply eqb_str_spec in E.
  exfalso. apply Hy. rewrite E. now apply in_map.
Qed.

Lemma isSome_find (key : A -> Z) (l : list A) (k : Z) :
  isSome (find (fun y => key y =? k) l) = true <-> In k (map key l).
Proof.
  induction l as [|y l IH]; simpl; [split; [discriminate | tauto]|].
  destruct (Z.eqb_spec (key y) k) as [E|E]; simpl.
  - split; auto.
  - rewrite IH. split; [auto | intros [H|H]; [contradiction | exact H]].
Qed.

End Find.

Section IndexProperties.

Context {host : Runtime} {data : Catalog}.

(** X18.  Lookup by id: what [getDivisionById], [getDistrictById] and
    [getUpazilaById] return is a row of the table with the id asked for;
    the [isValid] checks hold exactly for the ids that occur in the table;
    and when the ids of a table are pairwise different, looking up the id
    of a row gives that row back. *)
Theorem getById_roundtrip :
  (forall id d, getDivisionById id = Some d ->
     In d divisionsData /\ div_id d = id)
  /\ (forall id d, getDistrictById id = Some d ->
        In d districtsData /\ dist_id d = id)
  /\ (forall id u, getUpazilaById id = Some u ->
        In u upazilasData /\ upz_id u = id)
  /\ (forall id, isValidDivision id = true <-> In id (map div_id divisionsData))
  /\ (forall id, isValidDistrict id = true <-> In id (map dist_id districtsData))
  /\ (forall id, isValidUpazila id = true <-> In id (map upz_id upazilasData))
  /\ (UniqueIds data ->
      (forall d, In d divisionsData -> getDivisionById (div_id d) = Some d)
      /\ (forall d, In d districtsData -> getDistrictById (dist_id d) = Some d)
      /\ (forall u, In u upazilasData -> getUpazilaById (upz_id u) = Some u)).
Proof.
  repeat apply conj.
  - intros id d E. apply find_some in E. destruct E as [Hi E].
    apply Z.eqb_eq in E. auto.
  - intros id d E. apply find_some in E. destruct E as [Hi E].
    apply Z.eqb_eq in E. auto.
  - intros id d E. apply find_some in E. destruct E as [Hi E].
    apply Z.eqb_eq in E. auto.
  - intros id. apply isSome_find.
  - intros id. apply isSome_find.
  - intros id. apply isSome_find.
  - intros [U1 [U2 U3]]. repeat apply conj; intros x Hx.
    + now apply (find_key div_id).
    + now apply (find_key dist_id).
    + now apply (find_key upz_id).
Qed.

(** X19.  Lookup by slug folds its argument: the row returned is a row of
    the table whose slug is the folded argument; and when the slugs of a
    table are pairwise different, a row whose slug is its own folding is
    found by its slug. *)
Theorem getBySlug_roundtrip :
  (forall s d, getDivisionBySlug s = Some d ->
     In d divisionsData /\ div_slug d = toLowerCase s)
  /\ (forall s d, getDistrictBySlug s = Some d ->
        In d districtsData /\ dist_slug d = toLowerCase s)
  /\ (forall s u, getUpazilaBySlug s = Some u ->
        In u upazilasData /\ upz_slug u = toLowerCase s)
  /\ (NoDup (map div_slug divisionsData) ->
      forall d, In d divisionsData -> toLowerCase (div_slug d) = div_slug d ->
        getDivisionBySlug (div_slug d) = Some d)
  /\ (NoDup (map dist_slug districtsData) ->
      forall d, In d districtsData -> toLowerCase (dist_slug d) = dist_slug d ->
        getDistrictBySlug (dist_slug d) = Some d)
  /\ (NoDup (map upz_slug upazilasData) ->
      forall u, In u upazilasData -> toLowerCase (upz_slug u) = upz_slug u ->
        getUpazilaBySlug (upz_slug u) = Some u).
Proof.
  repeat apply conj.
  - intros s d E. apply find_some in E. destruct E as [Hi E].
    apply eqb_str_spec in E. auto.
  - intros s d E. apply find_some in E. destruct E as [Hi E].
    apply eqb_str_spec in E. auto.
  - intros s d E. apply find_some in E. destruct E as [Hi E].
    apply eqb_str_spec in E. auto.
  - intros Hn d Hd El. unfold getDivisionBySlug. rewrite El.
    now apply (find_text div_slug).
  - intros Hn d Hd El. unfold getDistrictBySlug. rewrite El.
    now apply (find_text dist_slug).
  - intros Hn d Hd El. unfold getUpazilaBySlug. rewrite El.
    now apply (find_text upz_slug).
Qed.

(** X20.  [getFullAddress] returns a consistent chain: the upazila has the
    id asked for, the district is the one the upazila names and the division
    the one the district names, and the membership checks agree with it.
    It returns an address exactly when the upazila lies in a valid
    division. *)
Theorem getFullAddress_chain (upazilaId : Z) :
  (forall a, getFullAddress upazilaId = Some a ->
     upz_id (addr_upazila a) = upazilaId
     /\ dist_id (addr_district a) = upz_districtId (addr_upazila a)
     /\ div_id (addr_division a) = dist_divisionId (addr_district a)
     /\ In (addr_upazila a) upazilasData
     /\ In (addr_district a) districtsData
     /\ In (addr_division a) divisionsData
     /\ getDistrictOfUpazila upazilaId = Some (addr_district a)
     /\ isUpazilaInDistrict upazilaId (dist_id (addr_district a)) = true
     /\ isUpazilaInDivision upazilaId (div_id (addr_division a)) = true)
  /\ (isSome (getFullAddress upazilaId) = true <->
      exists k, isUpazilaInDivision upazilaId k = true
                /\ isValidDivision k = true).
Proof.
  unfold getFullAddress, isUpazilaInDivision, isUpazilaInDistrict,
    getDistrictOfUpazila, isValidDivision.
  destruct (getUpazilaById upazilaId) as [uz|] eqn:Eu.
  2:{ split; [discriminate|]. split; [discriminate | intros [k [H _]]; discriminate]. }
  destruct (getDistrictById (upz_districtId uz)) as [ds|] eqn:Ed.
  2:{ split; [discriminate|]. split; [discriminate | intros [k [H _]]; discriminate]. }
  apply find_some in Eu as Hu. destruct Hu as [Hu1 Hu2].
  apply find_some in Ed as Hd. destruct Hd as [Hd1 Hd2].
  apply Z.eqb_eq in Hu2, Hd2.
  destruct (getDivisionById (dist_divisionId ds)) as [dv|] eqn:Ev.
  - apply find_some in Ev as Hv. destruct Hv as [Hv1 Hv2].
    apply Z.eqb_eq in Hv2.
    split.
    + intros a [= <-]. simpl. rewrite Hd2, Hv2, !Z.eqb_refl.
      repeat split; auto.
    + split; [intros _|reflexivity].
      exists (dist_divisionId ds). rewrite Z.eqb_refl, Ev. auto.
  - split; [discriminate|]. split; [discriminate|].
    intros [k [H1 H2]]. apply Z.eqb_eq in H1. subst k.
    rewrite Ev in H2. discriminate.
Qed.

End IndexProperties.

(** ** Relations between the tables *)

Section Relations.

Context {host : Runtime} {data : Catalog}.

Lemma existsb_eqb (k : Z) (l : list Z) :
  existsb (Z.eqb k) l = true <-> In k l.
Proof.
  rewrite existsb_exists. split.
  - intros [x [Hx E]]. apply Z.eqb_eq in E. now subst.
  - intros H. exists k. split; [exact H | apply Z.eqb_refl].
Qed.

(** X21.  When ids are pairwise different, [getUpazilasByDivision] and
    [isUpazilaInDivision] agree: an upazila of the table is listed for a
    division exactly when the check holds for its id. *)
Theorem getUpazilasByDivision_agrees (divisionId : Z) (u : Upazila) :
  UniqueIds data -> In u upazilasData ->
  (In u (getUpazilasByDivision divisionId)
   <-> isUpazilaInDivision (upz_id u) divisionId = true).
Proof.
  intros [_ [U2 U3]] Hu.
  unfold getUpazilasByDivision, isUpazilaInDivision, getDistrictOfUpazila,
    getUpazilaById, getDistrictById, getDistrictsByDivision.
  rewrite (find_key upz_id _ _ U3 Hu).
  rewrite filter_In, existsb_eqb, in_map_iff. split.
  - intros [_ [ds [Ei Hds]]]. apply filter_In in Hds. destruct Hds as [Hds Ek].
    rewrite <- Ei. now rewrite (find_key dist_id _ _ U2 Hds).
  - destruct (find _ districtsData) as [ds|] eqn:Ed; [|discriminate].
    intros Ek. apply find_some in Ed. destruct Ed as [Hds Ei].
    apply Z.eqb_eq in Ei.
    split; [exact Hu|]. exists ds. split; [exact Ei|].
    apply filter_In. auto.
Qed.

Lemma filter_or_length {A} (p q : A -> bool) (l : list A) :
  (forall x, p x = true -> q x = false) ->
  length (filter (fun x => p x || q x) l)
  = (length (filter p l) + length (filter q l))%nat.
Proof.
  intros D. induction l as [|x l IH]; [reflexivity|].
  simpl. destruct (p x) eqn:P; simpl.
  - rewrite (D x P). simpl. now rewrite IH.
  - destruct (q x); simpl; rewrite IH; lia.
Qed.

Lemma filter_members_length {A} (key : A -> Z) (ids : list Z) (l : list A) :
  NoDup ids ->
  Z.of_nat (length (filter (fun x => existsb (Z.eqb (key x)) ids) l))
  = total (map (fun i => Z.of_nat (length (filter (fun x => key x =? i) l)))
               ids).
Proof.
  induction 1 as [|i ids Hi Hn IH]; simpl.
  - induction l; simpl; auto.
  - rewrite filter_or_length.
    + rewrite Nat2Z.inj_add, IH. reflexivity.
    + intros x E. apply Z.eqb_eq in E.
      destruct (existsb (Z.eqb (key x)) ids) eqn:Ex; [|reflexivity].
      apply existsb_eqb in Ex. congruence.
Qed.

(** Selecting rows keeps their keys pairwise different. *)
Lemma NoDup_map_filter {Row Key : Type} (key : Row -> Key)
    (keep : Row -> bool) (rows : list Row) (Hn : NoDup (map key rows)) :
  NoDup (map key (filter keep rows)).
Proof.
  revert Hn. induction rows as [|x rows IH]; simpl; intros Hn; [constructor|].
  inversion Hn as [|? ? Hx Hn']; subst.
  destruct (keep x); simpl; [|now apply IH].
  constructor; [|now apply IH].
  intros Hin. apply Hx. apply in_map_iff in Hin.
  destruct Hin as [y [E Hy]]. apply filter_In in Hy.
  rewrite <- E. apply in_map. tauto.
Qed.

(** X22.  When the district ids are pairwise different, the upazila count
    of a division is the sum of the upazila counts of its districts. *)
Theorem getUpazilaCountByDivision_sum (divisionId : Z) :
  NoDup (map dist_id districtsData) ->
  getUpazilaCountByDivision divisionId
  = total (map (fun d => getUpazilaCount (dist_id d))
               (getDistrictsByDivision divisionId)).
Proof.
  intros U. unfold getUpazilaCountByDivision, getUpazilasByDivision,
    getUpazilaCount, getUpazilasByDistrict.
  rewrite (filter_members_length upz_districtId).
  - now rewrite map_map.
  - unfold getDistrictsByDivision. now apply NoDup_map_filter.
Qed.

(** What the counting loop leaves under a key. *)
Lemma countKeys_from (keys : list Z) (record : NumRecord) (k : Z) :
  fold_left (fun r x => setKey r x (orZero (r x) + 1)) keys record k
  = if (count_occ Z.eq_dec keys k =? 0)%nat then record k
    else Some (orZero (record k) + Z.of_nat (count_occ Z.eq_dec keys k)).
Proof.
  revert record. induction keys as [|x keys IH]; intros record; simpl.
  - reflexivity.
  - rewrite IH. unfold setKey.
    destruct (Z.eq_dec x k) as [->|Hne].
    + rewrite Z.eqb_refl. simpl orZero.
      destruct (count_occ Z.eq_dec keys k) as [|c]; simpl; f_equal; lia.
    + destruct (Z.eqb_spec k x) as [E|_]; [congruence|]. reflexivity.
Qed.

Lemma count_occ_filter {A} (key : A -> Z) (l : list A) (k : Z) :
  count_occ Z.eq_dec (map key l) k = length (filter (fun x => key x =? k) l).
Proof.
  induction l as [|x l IH]; [reflexivity|].
  simpl. destruct (Z.eq_dec (key x) k) as [E|E].
  - rewrite (proj2 (Z.eqb_eq _ _) E). simpl. now rewrite IH.
  - rewrite (proj2 (Z.eqb_neq _ _) E). exact IH.
Qed.

(** X23.  The maps of [getStats] hold the counts: under a division id,
    [divisionDistrictMap] holds [getDistrictCount] of it, and under a
    district id [districtUpazilaMap] holds [getUpazilaCount] of it; an id
    with no rows has no entry. *)
Theorem getStats_counts (k : Z) :
  divisionDistrictMap getStats k
  = (if getDistrictCount k =? 0 then None else Some (getDistrictCount k))
  /\ districtUpazilaMap getStats k
     = (if getUpazilaCount k =? 0 then None else Some (getUpazilaCount k)).
Proof.
  unfold getStats, countKeys, getDistrictCount, getUpazilaCount,
    getDistrictsByDivision, getUpazilasByDistrict. simpl.
  rewrite !countKeys_from, !count_occ_filter. unfold emptyRecord. simpl.
  split.
  - destruct (length (filter _ districtsData)) as [|c]; simpl;
      [reflexivity | f_equal; lia].
  - destruct (length (filter _ upazilasData)) as [|c]; simpl;
      [reflexivity | f_equal; lia].
Qed.


End Relations.

(** ** [autocomplete] and [search] together *)

Section SuggestAndSearch.

Context {host : Runtime} {data : Catalog}.

Local Open Scope Q_scope.

Lemma prefix_score (query target : jsstring) (cs : bool) :
  startsWith (folded cs target) (folded cs query) = true ->
  0.8 <= calculateSimilarity query target cs.
Proof.
  intros S. apply startsWith_includes in S.
  destruct (calculateSimilarity_rules query target cs)
    as [[E ->] | [[Hne [I ->]] | [Hne [I _]]]].
  - lra.
  - pose proof (includes_proper_len _ _ I Hne) as Hlt.
    pose proof (ratio_bounds _ _ (len_nonneg _) Hlt) as [H0 H1]. lra.
  - congruence.
Qed.

(** X25.  What [autocomplete] suggests for its primary name, [search]
    finds: when the threshold is at most 0.8, every suggestion whose
    (folded) English name starts with the query is matched by
    [searchInItem] for the same query and options, with a score of at least
    0.8. *)
Theorem autocomplete_primary_is_hit (query : jsstring)
    (options : SearchOptions) (e : Suggestion) :
  let opts := spread defaultSearchOptions options in
  In e (autocomplete query options) ->
  onPrimary opts (prefixQuery opts query) e = true ->
  threshold opts <= 0.8 ->
  exists r, searchInItem (sg_item e) (trim query) opts = Ok (Some r)
            /\ 0.8 <= score r.
Proof.
  intros opts He Hp Hth.
  assert (Hc : FromCatalog e).
  { destruct (isBlank query) eqn:Hb.
    - unfold autocomplete in He. rewrite Hb in He. destruct He.
    - pose proof (autocomplete_eq query options Hb) as E. cbv zeta in E.
      fold opts in E. rewrite E in He. apply slice0_In in He.
      apply (candidates_FromCatalog opts).
      apply in_app_or in He. rewrite !filter_In in He. tauto. }
  destruct Hc as [En _].
  unfold onPrimary, prefixQuery in Hp. apply andb_true_iff in Hp.
  destruct Hp as [Hf Hs]. rewrite En in Hs.
  pose proof (prefix_score (trim query) (name (sg_item e))
                (caseSensitive opts) Hs) as Hsc.
  assert (Ha : anyField opts = true) by (unfold anyField; now rewrite Hf).
  destruct (searchInItem_total (sg_item e) (trim query) opts Ha) as [res Er].
  pose proof (searchInItem_spec _ _ _ _ Er) as Sp.
  destruct res as [r|].
  - exists r. split; [exact Er|].
    destruct Sp as [_ [_ [_ [_ [Hmax _]]]]].
    specialize (Hmax FName Hf). unfold fieldScore in Hmax.
    cbn [fieldValue] in Hmax. lra.
  - specialize (Sp FName Hf). unfold fieldScore in Sp.
    cbn [fieldValue] in Sp. lra.
Qed.

End SuggestAndSearch.

(** ** The further properties on the sample catalog *)

(** The README's typo example: "Dahka" against "Dhaka" scores 1 - 2/5. *)
Lemma calculateSimilarity_edit_witness :
  includes (@folded basicLatin false (js "Dhaka"))
           (@folded basicLatin false (js "Dahka")) = false
  /\ (@calculateSimilarity basicLatin (js "Dahka") (js "Dhaka") false
      == 3 # 5)%Q.
Proof.
  split; [reflexivity|].
  destruct (@calculateSimilarity_edit basicLatin (js "Dahka") (js "Dhaka")
              false ltac:(discriminate) eq_refl) as [E _].
  rewrite E. reflexivity.
Defined.

(** "dhaka" scores 1 on the name and on the slug of the division Dhaka; the
    name is reported. *)
Lemma searchInItem_best_witness :
  exists r,
    @searchInItem basicLatin _ _ dhakaDivision (js "dhaka")
      defaultSearchOptions = Ok (Some r)
    /\ matchedField r = FName
    /\ (@fieldScore basicLatin _ _ dhakaDivision (js "dhaka")
          defaultSearchOptions FSlug <= score r)%Q.
Proof.
  destruct (@searchInItem basicLatin _ _ dhakaDivision (js "dhaka")
              defaultSearchOptions) as [[r|]|] eqn:E;
    try (vm_compute in E; discriminate E).
  exists r. split; [reflexivity|].
  pose proof (@searchInItem_best basicLatin _ _ dhakaDivision (js "dhaka")
                defaultSearchOptions _ E) as [_ [_ [_ [_ [Hmax _]]]]].
  split; [|apply Hmax; reflexivity].
  vm_compute in E. injection E as <-. reflexivity.
Defined.

Lemma search_sound_witness :
  exists r,
    @search basicLatin sampleCatalog (js "a") noOptions = Ok r
    /\ districts r <> []
    /\ @Sound basicLatin _ _ (districts r) (@districtsData sampleCatalog)
         (trim (js "a")) (spread defaultSearchOptions noOptions).
Proof.
  destruct (@search basicLatin sampleCatalog (js "a") noOptions) as [r|e] eqn:E.
  - exists r. split; [reflexivity|]. split.
    + vm_compute in E. injection E as <-. discriminate.
    + apply (@search_sound basicLatin sampleCatalog (js "a") noOptions r E).
  - vm_compute in E. discriminate E.
Defined.

(** Padded with spaces, the query finds the same. *)
Lemma search_ignores_outer_space_witness :
  @search basicLatin sampleCatalog (js "  Dhaka ") noOptions
  = @search basicLatin sampleCatalog (js "Dhaka") noOptions.
Proof.
  destruct (@search_ignores_outer_space basicLatin sampleCatalog (js "Dhaka")
              noOptions) as [H _].
  apply (H (js "  Dhaka ")). reflexivity.
Defined.

Lemma search_exact_first_witness :
  exists r top rest,
    @search basicLatin sampleCatalog (js "dhaka") noOptions = Ok r
    /\ divisions r = top :: rest /\ (score top == 1)%Q.
Proof.
  destruct (@search basicLatin sampleCatalog (js "dhaka") noOptions)
    as [r|e] eqn:E.
  - destruct (@search_exact_first basicLatin sampleCatalog (js "dhaka")
                noOptions r FName E eq_refl ltac:(discriminate)
                ltac:(discriminate) eq_refl) as [H _].
    destruct (H eq_refl dhakaDivision (or_introl eq_refl) eq_refl)
      as [top [rest [E1 E2]]].
    exists r, top, rest. auto.
  - vm_compute in E. discriminate E.
Defined.

Lemma search_threshold_monotone_witness :
  exists r1 r2,
    @search basicLatin sampleCatalog (js "sabcdt")
      (withThreshold noOptions 0.3) = Ok r1
    /\ @search basicLatin sampleCatalog (js "sabcdt")
         (withThreshold noOptions 0.4) = Ok r2
    /\ PrefixResult r2 r1 /\ divisions r1 <> [] /\ divisions r2 = [].
Proof.
  destruct (@search basicLatin sampleCatalog (js "sabcdt")
              (withThreshold noOptions 0.3)) as [r1|e] eqn:E.
  - destruct (@search_threshold_monotone basicLatin sampleCatalog
                (js "sabcdt") noOptions 0.3 0.4 r1 ltac:(discriminate) E)
      as [r2 [E2 P]].
    exists r1, r2. split; [reflexivity|]. split; [exact E2|].
    split; [exact P|].
    vm_compute in E. injection E as <-.
    vm_compute in E2. injection E2 as <-.
    split; [discriminate | reflexivity].
  - vm_compute in E. discriminate E.
Defined.

Lemma fuzzySearch_within_search_witness :
  exists r r',
    @search basicLatin sampleCatalog (js "Dahka") noOptions = Ok r
    /\ @fuzzySearch basicLatin sampleCatalog (js "Dahka") noOptions = Ok r'
    /\ PrefixResult r' r.
Proof.
  destruct (@search basicLatin sampleCatalog (js "Dahka") noOptions)
    as [r|e] eqn:E.
  - destruct (@fuzzySearch_within_search basicLatin sampleCatalog
                (js "Dahka") noOptions r ltac:(discriminate) E)
      as [r' [E' P]].
    exists r, r'. auto.
  - vm_compute in E. discriminate E.
Defined.

Lemma search_limit_monotone_witness :
  exists r1 r2,
    @search basicLatin sampleCatalog (js "a") (withLimit noOptions 1) = Ok r1
    /\ @search basicLatin sampleCatalog (js "a") (withLimit noOptions 10)
       = Ok r2
    /\ PrefixResult r1 r2
    /\ length (districts r1) = 1%nat /\ length (districts r2) = 2%nat.
Proof.
  destruct (@search basicLatin sampleCatalog (js "a") (withLimit noOptions 1))
    as [r1|e] eqn:E.
  - assert (H1 : 1 <= 10) by lia.
    assert (H2 : 0 <= 1 \/ 10 < 0) by lia.
    destruct (@search_limit_monotone basicLatin sampleCatalog (js "a")
                noOptions 1 10 r1 H1 H2 E) as [r2 [E2 P]].
    exists r1, r2. split; [reflexivity|]. split; [exact E2|].
    split; [exact P|].
    vm_compute in E. injection E as <-.
    vm_compute in E2. injection E2 as <-.
    split; reflexivity.
  - vm_compute in E. discriminate E.
Defined.

Lemma category_presets_agree_witness :
  exists r,
    @search basicLatin sampleCatalog (js "Dhaka") noOptions = Ok r
    /\ @searchDistricts basicLatin sampleCatalog (js "Dhaka") noOptions
       = Ok (districts r).
Proof.
  destruct (@search basicLatin sampleCatalog (js "Dhaka") noOptions)
    as [r|e] eqn:E.
  - exists r. split; [reflexivity|].
    destruct (@category_presets_agree basicLatin sampleCatalog (js "Dhaka")
                noOptions r E) as [_ [H _]].
    apply H. reflexivity.
  - vm_compute in E. discriminate E.
Defined.

Lemma language_presets_field_witness :
  exists r,
    @searchBengali basicLatin sampleCatalog bn_dhaka noOptions = Ok r
    /\ divisions r <> [] /\ MatchedOn FBnName r.
Proof.
  destruct (@searchBengali basicLatin sampleCatalog bn_dhaka noOptions)
    as [r|e] eqn:E.
  - exists r. split; [reflexivity|]. split.
    + vm_compute in E. injection E as <-. discriminate.
    + apply (@language_presets_field basicLatin sampleCatalog bn_dhaka
               noOptions). exact E.
  - vm_compute in E. discriminate E.
Defined.

(** With every entity matching (threshold 0), "gazipur" is answered by the
    district Gazipur, which outscores every division. *)
Lemma quickSearch_category_order_witness :
  @quickSearch basicLatin sampleCatalog (js "gazipur")
    (withThreshold noOptions 0) = Ok (Some (ADistrict gazipurDistrict))
  /\ exists r,
       @Matches basicLatin (ADistrict gazipurDistrict) (trim (js "gazipur"))
         (spread defaultSearchOptions
            (withLimit (withThreshold noOptions 0) 1)) r
       /\ forall e' r',
            In e' (@searched sampleCatalog
                     (spread defaultSearchOptions
                        (withLimit (withThreshold noOptions 0) 1))) ->
            @Matches basicLatin e' (trim (js "gazipur"))
              (spread defaultSearchOptions
                 (withLimit (withThreshold noOptions 0) 1)) r' ->
            (categoryRank e' < categoryRank (ADistrict gazipurDistrict))%Z ->
            (score r' < score r)%Q.
Proof.
  assert (E : @quickSearch basicLatin sampleCatalog (js "gazipur")
                (withThreshold noOptions 0)
              = Ok (Some (ADistrict gazipurDistrict)))
    by (vm_compute; reflexivity).
  split; [exact E|].
  exact (@quickSearch_category_order basicLatin sampleCatalog (js "gazipur")
           (withThreshold noOptions 0) _ E).
Defined.

Lemma sampleCatalog_UniqueIds : UniqueIds sampleCatalog.
Proof.
  unfold UniqueIds. simpl.
  repeat split; repeat constructor; simpl; intuition discriminate.
Qed.

Lemma getById_roundtrip_witness :
  UniqueIds sampleCatalog
  /\ @getUpazilaById sampleCatalog (upz_id savarUpazila) = Some savarUpazila.
Proof.
  split; [exact sampleCatalog_UniqueIds|].
  destruct (@getById_roundtrip sampleCatalog)
    as [_ [_ [_ [_ [_ [_ H]]]]]].
  destruct (H sampleCatalog_UniqueIds) as [_ [_ Hu]].
  apply Hu. simpl. auto.
Defined.

Lemma getBySlug_roundtrip_witness :
  @getDistrictBySlug basicLatin sampleCatalog (dist_slug gazipurDistrict)
  = Some gazipurDistrict.
Proof.
  destruct (@getBySlug_roundtrip basicLatin sampleCatalog)
    as [_ [_ [_ [_ [H _]]]]].
  apply H.
  - simpl. repeat constructor; simpl; intuition discriminate.
  - simpl. auto.
  - reflexivity.
Defined.

Lemma getFullAddress_chain_witness :
  exists a,
    @getFullAddress sampleCatalog 151 = Some a
    /\ addr_division a = dhakaDivision
    /\ @isUpazilaInDivision sampleCatalog 151 (div_id (addr_division a))
       = true.
Proof.
  destruct (@getFullAddress sampleCatalog 151) as [a|] eqn:E.
  - exists a. split; [reflexivity|]. split.
    + vm_compute in E. injection E as <-. reflexivity.
    + apply (@getFullAddress_chain sampleCatalog 151). exact E.
  - vm_compute in E. discriminate E.
Defined.

Lemma getUpazilasByDivision_agrees_witness :
  In savarUpazila (@getUpazilasByDivision sampleCatalog 1)
  /\ @isUpazilaInDivision sampleCatalog (upz_id savarUpazila) 1 = true.
Proof.
  assert (H : In savarUpazila (@getUpazilasByDivision sampleCatalog 1))
    by (simpl; auto).
  split; [exact H|].
  apply (@getUpazilasByDivision_agrees sampleCatalog 1 savarUpazila
           sampleCatalog_UniqueIds); [simpl; auto | exact H].
Defined.

Lemma getUpazilaCountByDivision_sum_witness :
  @getUpazilaCountByDivision sampleCatalog 1 = 2
  /\ @getUpazilaCountByDivision sampleCatalog 1
     = total (map (fun d => @getUpazilaCount sampleCatalog (dist_id d))
                  (@getDistrictsByDivision sampleCatalog 1)).
Proof.
  split; [reflexivity|].
  apply (@getUpazilaCountByDivision_sum sampleCatalog 1).
  apply sampleCatalog_UniqueIds.
Defined.

(** The division Dhaka is suggested for "Dha" and found by the search. *)
Lemma autocomplete_primary_is_hit_witness :
  exists r,
    @searchInItem basicLatin _ _ (ADivision dhakaDivision) (trim (js "Dha"))
      (spread defaultSearchOptions noOptions) = Ok (Some r)
    /\ (0.8 <= score r)%Q.
Proof.
  apply (@autocomplete_primary_is_hit basicLatin sampleCatalog (js "Dha")
           noOptions (suggest division ADivision dhakaDivision)).
  - vm_compute. auto.
  - reflexivity.
  - discriminate.
Defined.
